(** * Table-of-contents tracker and heading-id generator

    A shallow embedding of the two pieces of client-side logic of the blog
    platform:

    - [slugify] and the heading components of [useMDXComponents]
      (mdx-components.tsx), which assign the identifiers of the rendered
      headings;
    - the [TableOfContents] component (components/table-of-contents.tsx):
      heading extraction on mount, the intersection-observer callback,
      the effect's cleanup, the renderer and the click handler.

    JavaScript strings are sequences of UTF-16 code units, modelled as
    [list N]; [str] embeds an ASCII literal. *)

From Stdlib Require Import Ascii String NArith ZArith QArith.
From stdpp Require Import base decidable option numbers list strings gmap.

Local Open Scope N_scope.

(** ** JavaScript strings *)

Abbreviation jsstring := (list N).

Definition str (s : string) : jsstring :=
  (λ a, N_of_ascii a) <$> list_ascii_of_string s.

Module Js.

Definition hyphen : N := 45.

Definition isUpper (c : N) : bool := (65 <=? c) && (c <=? 90).
Definition isLower (c : N) : bool := (97 <=? c) && (c <=? 122).
Definition isDigit (c : N) : bool := (48 <=? c) && (c <=? 57).

(** [String.prototype.charAt]: the one-unit string at [pos], or the
    empty string when [pos] is out of range. *)
Definition charAt (s : jsstring) (pos : nat) : jsstring :=
  match s !! pos with
  | Some c => [c]
  | None => []
  end.

(** [a || b] on strings: the empty string is the only falsy string. *)
Definition orElse (a b : jsstring) : jsstring :=
  match a with
  | [] => b
  | _ => a
  end.

(** JavaScript numbers, as far as the component uses them: an integer
    or [NaN]. *)
Inductive number : Type :=
| Int (z : Z)
| NaN.

Global Instance number_eq_dec : EqDecision number.
Proof. solve_decision. Defined.

Fixpoint digitsValue (acc : Z) (s : jsstring) : Z :=
  match s with
  | c :: t =>
      if isDigit c then digitsValue (10 * acc + Z.of_N (c - 48)) t else acc
  | [] => acc
  end.

(** [parseInt] without a radix, on a string that carries no leading
    white space, sign or hexadecimal prefix: the value of the longest
    prefix of decimal digits, [NaN] when that prefix is empty. On a
    string of at most one code unit (all the component passes) this is
    the whole of [parseInt]: a lone white-space or sign unit gives
    [NaN] as well. *)
Definition parseInt (s : jsstring) : number :=
  match s with
  | c :: _ => if isDigit c then Int (digitsValue 0 s) else NaN
  | [] => NaN
  end.

End Js.

(** ** mdx-components.tsx: [slugify] *)

Section Slugify.

(** [String.prototype.toLowerCase] maps every ASCII code unit to its
    ASCII lower case, whatever surrounds it. What it does to a code unit
    outside ASCII follows the Unicode case tables and may depend on the
    neighbouring units (surrogate pairs, final sigma): that part is the
    variable [lowerNonAscii], given the whole string and the position,
    and returning the units produced there. *)
Variable lowerNonAscii : jsstring → nat → jsstring.

Definition lowerAscii (c : N) : N :=
  if Js.isUpper c then c + 32 else c.

Fixpoint toLowerCaseFrom (whole : jsstring) (pos : nat) (s : jsstring)
  : jsstring :=
  match s with
  | [] => []
  | c :: t =>
      (if c <? 128 then [lowerAscii c] else lowerNonAscii whole pos)
        ++ toLowerCaseFrom whole (S pos) t
  end.

Definition toLowerCase (s : jsstring) : jsstring :=
  toLowerCaseFrom s 0 s.

(** The class [[a-z0-9]]. *)
Definition isAlnum (c : N) : bool := Js.isLower c || Js.isDigit c.

(** [.replace(/[^a-z0-9]+/g, '-')]: scanning left to right, every
    maximal run of units outside [[a-z0-9]] is replaced by one hyphen.
    [inRun] tells that the unit before belongs to a run whose hyphen has
    been emitted. *)
Fixpoint replaceRuns (inRun : bool) (s : jsstring) : jsstring :=
  match s with
  | [] => []
  | c :: t =>
      if isAlnum c then c :: replaceRuns false t
      else if inRun then replaceRuns true t
      else Js.hyphen :: replaceRuns true t
  end.

Definition atEnd (t : jsstring) : bool :=
  match t with
  | [] => true
  | _ => false
  end.

(** [.replace(/(^-|-$)/g, '')]: at each position the first alternative
    matches a hyphen at the start of the input, the second a hyphen that
    is the last unit of the input; a match is deleted. *)
Fixpoint stripEdges (atStart : bool) (s : jsstring) : jsstring :=
  match s with
  | [] => []
  | c :: t =>
      if (c =? Js.hyphen) && (atStart || atEnd t) then stripEdges false t
      else c :: stripEdges false t
  end.

Definition slugify (text : jsstring) : jsstring :=
  stripEdges true (replaceRuns false (toLowerCase text)).

End Slugify.

(** The units a slug is made of: [[a-z0-9-]]. *)
Definition slugChar (c : N) : bool :=
  Js.isLower c || Js.isDigit c || (c =? Js.hyphen).

(** No hyphen follows a hyphen; [afterHyphen] tells that the unit before
    the string is one. *)
Fixpoint singleHyphens (afterHyphen : bool) (s : jsstring) : bool :=
  match s with
  | [] => true
  | c :: t =>
      if c =? Js.hyphen then negb afterHyphen && singleHyphens true t
      else singleHyphens false t
  end.

(** The words of a text: its maximal runs of units of [[a-z0-9]], in
    order. [cur] is the word being read. *)
Fixpoint splitWords (cur : jsstring) (s : jsstring) : list jsstring :=
  match s with
  | [] => match cur with [] => [] | _ => [cur] end
  | c :: t =>
      if isAlnum c then splitWords (cur ++ [c]) t
      else match cur with
           | [] => splitWords [] t
           | _ => cur :: splitWords [] t
           end
  end.

(** Words put together with one hyphen between neighbours. *)
Fixpoint joinHyphen (ws : list jsstring) : jsstring :=
  match ws with
  | [] => []
  | w :: rest =>
      match rest with
      | [] => w
      | _ => w ++ Js.hyphen :: joinHyphen rest
      end
  end.

(** The heading components of [useMDXComponents] (h1, h2 and h3 alike):
    [typeof children === 'string' ? slugify(children) : '']. [children]
    is [Some text] when it is a string and [None] otherwise. *)
Definition headingId (lowerNonAscii : jsstring → nat → jsstring)
    (children : option jsstring) : jsstring :=
  match children with
  | Some text => slugify lowerNonAscii text
  | None => []
  end.

(** ** The document and the browser services the component calls *)

Module Dom.

(** An element of the page, which is an HTML document.
    - [node]: which node it is. An element value stands for a live
      node; two nodes that agree on everything else still differ here.
    - [html]: the element is in the HTML namespace.
    - [prefix], [localName]: its namespace prefix, if any, and its local
      name; an element made by the HTML parser or by React has no prefix
      and a lower-case local name.
    - [id]: the reflected [id] attribute, empty when the attribute is
      absent.
    - [textContent]: the text of the element and its descendants. *)
Record Element : Type := mkElement {
  node : nat;
  html : bool;
  prefix : option jsstring;
  localName : jsstring;
  id : jsstring;
  textContent : jsstring;
}.

Global Instance Element_eq_dec : EqDecision Element.
Proof. solve_decision. Defined.

Definition upperAscii (c : N) : N :=
  if Js.isLower c then c - 32 else c.

(** The qualified name: the prefix, a colon and the local name, or the
    local name alone. *)
Definition qualifiedName (e : Element) : jsstring :=
  match prefix e with
  | Some p => p ++ 58 :: localName e
  | None => localName e
  end.

(** [Element.tagName]: the qualified name, in ASCII upper case when the
    element is in the HTML namespace. *)
Definition tagName (e : Element) : jsstring :=
  if html e then upperAscii <$> qualifiedName e else qualifiedName e.

(** A document: its elements in tree order. *)
Abbreviation Document := (list Element).

(** The selector list ['h2, h3']: a type selector compares its name with
    the local name of the element, whatever the namespace and the prefix
    of the element are. *)
Definition matchesH2H3 (e : Element) : bool :=
  bool_decide (localName e = str "h2") || bool_decide (localName e = str "h3").

(** [document.querySelectorAll('h2, h3')]: the matching elements in
    tree order. *)
Definition querySelectorAll (doc : Document) : list Element :=
  filter (λ e, matchesH2H3 e = true) doc.

(** [document.getElementById]: the first element in tree order whose
    identifier is [i]; an element with an empty [id] has no identifier,
    so the empty string finds nothing. *)
Definition getElementById (doc : Document) (i : jsstring) : option Element :=
  if decide (i = []) then None
  else head (filter (λ e, id e = i) doc).

(** The heading elements of HTML, [h1] to [h6]: elements of the HTML
    namespace with one of these local names. *)
Definition isHeading (e : Element) : bool :=
  html e
  && bool_decide (localName e ∈ [str "h1"; str "h2"; str "h3";
                                 str "h4"; str "h5"; str "h6"]).

(** An HTML element without namespace prefix, as the HTML parser and
    React make them. *)
Definition plainHtml (e : Element) : bool :=
  html e && bool_decide (prefix e = None).

(** Some element of the document has the identifier [i]. *)
Definition hasId (doc : Document) (i : jsstring) : Prop :=
  i ≠ [] ∧ ∃ e, e ∈ doc ∧ id e = i.

(** An [IntersectionObserverEntry], as far as the callback reads it. *)
Record Entry : Type := mkEntry {
  isIntersecting : bool;
  target : Element;
}.

(** The options of [scrollIntoView]. *)
Inductive Behavior : Type := Smooth | Instant | Auto.
Inductive Block : Type := BlockStart | BlockCenter | BlockEnd | BlockNearest.

Global Instance Behavior_eq_dec : EqDecision Behavior.
Proof. solve_decision. Defined.

Global Instance Block_eq_dec : EqDecision Block.
Proof. solve_decision. Defined.

(** The calls a click handler makes on the event and on the document. *)
Inductive Action : Type :=
| PreventDefault
| ScrollIntoView (el : Element) (behavior : Behavior) (block : Block).

Global Instance Action_eq_dec : EqDecision Action.
Proof. solve_decision. Defined.

(** How a handler ends. *)
Inductive Completion : Type := Normal | Throw.

(** The optional call [o?.method(...)]: nothing is called, and nothing
    is thrown, when [o] is null. *)
Definition optionalCall (o : option Element)
    (method : Element → list Action * Completion) : list Action * Completion :=
  match o with
  | Some el => method el
  | None => ([], Normal)
  end.

Definition isScroll (a : Action) : bool :=
  match a with
  | ScrollIntoView _ _ _ => true
  | PreventDefault => false
  end.

(** The browser follows the anchor's [href] after the handler unless
    the handler called [preventDefault]. *)
Definition defaultNavigation (acts : list Action) : bool :=
  negb (bool_decide (PreventDefault ∈ acts)).

End Dom.

(** ** components/table-of-contents.tsx *)

Module Toc.

Record TocItem : Type := mkTocItem {
  id : jsstring;
  text : jsstring;
  level : Js.number;
}.

Global Instance TocItem_eq_dec : EqDecision TocItem.
Proof. solve_decision. Defined.

(** The two [useState] cells. *)
Record State : Type := mkState {
  headings : list TocItem;
  activeId : jsstring;
}.

Definition initialState : State :=
  {| headings := []; activeId := [] |}.

(** The body of [elements.map] in the effect. *)
Definition toItem (element : Dom.Element) : TocItem :=
  {| id := Dom.id element;
     text := Js.orElse (Dom.textContent element) [];
     level := Js.parseInt (Js.charAt (Dom.tagName element) 1) |}.

(** A call of one of the two state setters. *)
Inductive SetterCall : Type :=
| SetHeadings (items : list TocItem)
| SetActiveId (i : jsstring).

Definition isSetHeadings (c : SetterCall) : bool :=
  match c with
  | SetHeadings _ => true
  | SetActiveId _ => false
  end.

(** What the effect returns: [() => observer.disconnect()]. *)
Inductive Cleanup : Type := Disconnect.

(** The component instance together with what it touches.
    - [mounted]: React keeps the instance; a setter called on an
      unmounted instance does nothing. [state] then keeps the last
      values so that they can be compared.
    - [observed]: the targets of the instance's [IntersectionObserver].
    - [teardown]: the cleanup React holds for the effect.
    - [writes]: the setter calls that took effect, oldest first.
    - [actions]: the calls made by click handlers, oldest first. *)
Record World : Type := mkWorld {
  document : Dom.Document;
  mounted : bool;
  state : State;
  observed : list Dom.Element;
  teardown : option Cleanup;
  writes : list SetterCall;
  actions : list Dom.Action;
}.

Definition initWorld (doc : Dom.Document) : World :=
  {| document := doc; mounted := false; state := initialState;
     observed := []; teardown := None; writes := []; actions := [] |}.

Definition setHeadings (items : list TocItem) (w : World) : World :=
  if mounted w then
    {| document := document w; mounted := mounted w;
       state := {| headings := items; activeId := activeId (state w) |};
       observed := observed w; teardown := teardown w;
       writes := writes w ++ [SetHeadings items]; actions := actions w |}
  else w.

Definition setActiveId (i : jsstring) (w : World) : World :=
  if mounted w then
    {| document := document w; mounted := mounted w;
       state := {| headings := headings (state w); activeId := i |};
       observed := observed w; teardown := teardown w;
       writes := writes w ++ [SetActiveId i]; actions := actions w |}
  else w.

(** [observer.observe(element)]. *)
Definition observe (element : Dom.Element) (w : World) : World :=
  {| document := document w; mounted := mounted w; state := state w;
     observed := observed w ++ [element]; teardown := teardown w;
     writes := writes w; actions := actions w |}.

(** [observer.disconnect()]: every target is released. *)
Definition disconnect (w : World) : World :=
  {| document := document w; mounted := mounted w; state := state w;
     observed := []; teardown := teardown w;
     writes := writes w; actions := actions w |}.

(** The body of [entries.forEach] in the observer's callback. *)
Definition onEntry (w : World) (entry : Dom.Entry) : World :=
  if Dom.isIntersecting entry then setActiveId (Dom.id (Dom.target entry)) w
  else w.

(** The identifiers of the targets a batch reports as intersecting, in
    the order of the batch. *)
Definition intersectingIds (entries : list Dom.Entry) : list jsstring :=
  (λ entry, Dom.id (Dom.target entry))
    <$> filter (λ entry, Dom.isIntersecting entry = true) entries.

(** The callback given to [new IntersectionObserver]. *)
Definition observerCallback (entries : list Dom.Entry) (w : World) : World :=
  foldl onEntry w entries.

(** [new IntersectionObserver(callback, options)]: an observer without
    targets. The [rootMargin] option only decides which reports the
    browser makes, and the reports are inputs here. *)
Definition newIntersectionObserver (w : World) : World :=
  {| document := document w; mounted := mounted w; state := state w;
     observed := []; teardown := teardown w;
     writes := writes w; actions := actions w |}.

(** The effect of [useEffect(..., [])]: it runs once, after the first
    render of a mount, and returns its cleanup. *)
Definition effect (w : World) : World * Cleanup :=
  let elements := Dom.querySelectorAll (document w) in
  let items := toItem <$> elements in
  let w1 := setHeadings items w in
  let w2 := newIntersectionObserver w1 in
  let w3 := foldl (λ w' element, observe element w') w2 elements in
  (w3, Disconnect).

Definition runCleanup (c : Cleanup) (w : World) : World :=
  match c with
  | Disconnect => disconnect w
  end.

(** *** Rendering *)

(** One rendered list item: the [key], the [paddingLeft] of its style in
    rem ([None] is [NaN]), the [href] of its anchor, which branch of the
    [className] conditional was taken, and the anchor's text. *)
Record Li : Type := mkLi {
  key : jsstring;
  paddingLeft : option Q;
  href : jsstring;
  highlighted : bool;
  label : jsstring;
}.

Record Nav : Type := mkNav {
  title : jsstring;
  items : list Li;
}.

(** [(heading.level - 2) * 0.75]. The product is computed in the
    rationals; the double arithmetic of the source agrees with it for
    every integer level below 2^51 in absolute value, since
    3 * (level - 2) then fits the 53-bit significand and the division by
    4 is exact. *)
Definition paddingLeftRem (lvl : Js.number) : option Q :=
  match lvl with
  | Js.Int z => Some (inject_Z (z - 2) * (3 # 4))%Q
  | Js.NaN => None
  end.

(** The body of [headings.map] in the returned markup. *)
Definition renderItem (active : jsstring) (heading : TocItem) : Li :=
  {| key := id heading;
     paddingLeft := paddingLeftRem (level heading);
     href := str "#" ++ id heading;
     highlighted := bool_decide (active = id heading);
     label := text heading |}.

(** What the component returns: [None] is [null]. *)
Definition render (s : State) : option Nav :=
  if (length (headings s) =? 0)%nat then None
  else Some {| title := str "On This Page";
               items := renderItem (activeId s) <$> headings s |}.

(** *** Activation of an entry *)

(** The [onClick] handler of the anchor rendered for [heading]. *)
Definition onClick (doc : Dom.Document) (heading : TocItem)
  : list Dom.Action * Dom.Completion :=
  let '(acts, c) :=
    Dom.optionalCall (Dom.getElementById doc (id heading))
      (λ el, ([Dom.ScrollIntoView el Dom.Smooth Dom.BlockStart], Dom.Normal)) in
  (Dom.PreventDefault :: acts, c).

(** *** The life of an instance *)

(** What can happen to an instance.
    - [Mount]/[Unmount]: React mounts or unmounts it; a remount or a
      navigation away unmounts first.
    - [Intersect]: the browser has visibility changes to report; the
      observer passes on those about its own targets, if any.
    - [Fire]: the callback is called directly with a batch, as a stand-in
      for the observer would in a test.
    - [Click]: the user clicks the anchor rendered for an entry.
    - [Mutate]: the document changes underneath the component: its tree
      is rebuilt, with nodes added, removed or moved. The nodes the
      observer holds stay as they are, in the tree or out of it.
    - [Alter]: live nodes change in place (an attribute or the text is
      set): every node, in the document or held by the observer, becomes
      [change] of itself.
    A change of the page is an [Alter] for what happens to the nodes,
    followed by a [Mutate] for the tree they are then in. *)
Inductive Event : Type :=
| Mount
| Unmount
| Intersect (entries : list Dom.Entry)
| Fire (entries : list Dom.Entry)
| Click (heading : TocItem)
| Mutate (doc : Dom.Document)
| Alter (change : Dom.Element → Dom.Element).

Definition isMount (ev : Event) : bool :=
  match ev with
  | Mount => true
  | _ => false
  end.

Definition isUnmount (ev : Event) : bool :=
  match ev with
  | Unmount => true
  | _ => false
  end.

Definition isFire (ev : Event) : bool :=
  match ev with
  | Fire _ => true
  | _ => false
  end.

Definition isAlter (ev : Event) : bool :=
  match ev with
  | Alter _ => true
  | _ => false
  end.

Definition doMount (w : World) : World :=
  let fresh :=
    {| document := document w; mounted := true; state := initialState;
       observed := observed w; teardown := None;
       writes := writes w; actions := actions w |} in
  let '(w', c) := effect fresh in
  {| document := document w'; mounted := mounted w'; state := state w';
     observed := observed w'; teardown := Some c;
     writes := writes w'; actions := actions w' |}.

Definition doUnmount (w : World) : World :=
  let w' :=
    match teardown w with
    | Some c => runCleanup c w
    | None => w
    end in
  {| document := document w'; mounted := false; state := state w';
     observed := observed w'; teardown := None;
     writes := writes w'; actions := actions w' |}.

(** A report of the browser: the observer passes on the entries about its
    targets, each carrying the node as it is now. *)
Definition deliver (entries : list Dom.Entry) (w : World) : World :=
  match filter (λ entry, Dom.target entry ∈ observed w) entries with
  | [] => w
  | batch => observerCallback batch w
  end.

Definition doClick (heading : TocItem) (w : World) : World :=
  if mounted w && bool_decide (heading ∈ headings (state w)) then
    {| document := document w; mounted := mounted w; state := state w;
       observed := observed w; teardown := teardown w;
       writes := writes w;
       actions := actions w ++ fst (onClick (document w) heading) |}
  else w.

Definition setDocument (doc : Dom.Document) (w : World) : World :=
  {| document := doc; mounted := mounted w; state := state w;
     observed := observed w; teardown := teardown w;
     writes := writes w; actions := actions w |}.

(** The targets of the observer are the nodes themselves: what is set
    on a node shows in the document and in the target alike. *)
Definition alterNodes (change : Dom.Element → Dom.Element) (w : World) : World :=
  {| document := change <$> document w; mounted := mounted w; state := state w;
     observed := change <$> observed w; teardown := teardown w;
     writes := writes w; actions := actions w |}.

Definition step (w : World) (ev : Event) : World :=
  match ev with
  | Mount => if mounted w then w else doMount w
  | Unmount => if mounted w then doUnmount w else w
  | Intersect entries => deliver entries w
  | Fire entries => observerCallback entries w
  | Click heading => doClick heading w
  | Mutate doc => setDocument doc w
  | Alter change => alterNodes change w
  end.

Definition run (w : World) (evs : list Event) : World :=
  foldl step w evs.

(** While an instance is mounted, React holds the cleanup of its effect. *)
Definition holdsCleanup (w : World) : Prop :=
  mounted w = true → teardown w = Some Disconnect.

(** Since the mount that found the setter calls [base] made, [headings]
    was set once, to [found], every later call set [activeId], and the
    two cells hold what those calls put there. *)
Definition writtenOnce (base : list SetterCall) (found : list TocItem)
    (w : World) : Prop :=
  mounted w = true
  ∧ ∃ ids, writes w = base ++ SetHeadings found :: (SetActiveId <$> ids)
           ∧ state w = {| headings := found; activeId := default [] (last ids) |}.

(** [activeId] is empty or names an entry of the list, and every target
    of the observer has its entry in the list. *)
Definition activeListed (w : World) : Prop :=
  (activeId (state w) = []
   ∨ ∃ h, h ∈ headings (state w) ∧ id h = activeId (state w))
  ∧ ∀ e, e ∈ observed w → toItem e ∈ headings (state w).

(** The calls of one run of the click handler: [preventDefault], and
    then possibly one smooth scroll to the start of the block on an
    element that has an identifier. *)
Definition clickBlock (b : list Dom.Action) : Prop :=
  b = [Dom.PreventDefault]
  ∨ ∃ el, Dom.id el ≠ []
          ∧ b = [Dom.PreventDefault;
                 Dom.ScrollIntoView el Dom.Smooth Dom.BlockStart].

(** What the component asks of [scrollIntoView]: a smooth scroll to the
    start of the block, on an element that has an identifier. *)
Definition gentleScroll (a : Dom.Action) : Prop :=
  match a with
  | Dom.ScrollIntoView el behavior block =>
      Dom.id el ≠ [] ∧ behavior = Dom.Smooth ∧ block = Dom.BlockStart
  | Dom.PreventDefault => True
  end.

(** The claim that the list built on mount has one entry per heading
    element of the document, when these are all h2 or h3 and carry
    distinct, non-empty identifiers. *)
Definition listsOnePerHeading (doc : Dom.Document) : Prop :=
  Forall (λ e, Dom.isHeading e = true → Dom.matchesH2H3 e = true) doc →
  Forall (λ e, Dom.isHeading e = true → Dom.id e ≠ []) doc →
  NoDup (Dom.id <$> filter (λ e, Dom.isHeading e = true) doc) →
  length (headings (state (step (initWorld doc) Mount)))
  = length (filter (λ e, Dom.isHeading e = true) doc).

(** The claim that headings without an identifier are left out of the
    list: no entry of the list built on mount has an empty [id]. *)
Definition skipsHeadingsWithoutId (doc : Dom.Document) : Prop :=
  ∀ item, item ∈ headings (state (step (initWorld doc) Mount)) → id item ≠ [].

End Toc.


(** ** mdx-components.tsx: the components of [useMDXComponents] *)

Module Mdx.

(** The [children] of a heading: a plain string, or anything else
    (markup, an array of nodes), of which [content] is the text the
    browser shows. *)
Inductive Children : Type :=
| Text (s : jsstring)
| Markup (content : jsstring).

Definition childrenString (c : Children) : option jsstring :=
  match c with
  | Text s => Some s
  | Markup _ => None
  end.

Definition childrenText (c : Children) : jsstring :=
  match c with
  | Text s => s
  | Markup content => content
  end.

(** The element rendered by the h1, h2 and h3 components, which differ
    in their tag only: [<hN id={id} className="scroll-mt-20">]. [node]
    is the node the browser makes for it. *)
Definition heading (lowerNonAscii : jsstring → nat → jsstring)
    (tag : jsstring) (children : Children) (node : nat) : Dom.Element :=
  {| Dom.node := node;
     Dom.html := true;
     Dom.prefix := None;
     Dom.localName := tag;
     Dom.id := headingId lowerNonAscii (childrenString children);
     Dom.textContent := childrenText children |}.

Definition h1 lowerNonAscii := heading lowerNonAscii (str "h1").
Definition h2 lowerNonAscii := heading lowerNonAscii (str "h2").
Definition h3 lowerNonAscii := heading lowerNonAscii (str "h3").

(** The values of props. Numbers are [Js.number]; [PObject] stands for
    any object or function (a node, a handler, a static import). *)
Inductive PropValue : Type :=
| PStr (s : jsstring)
| PNum (n : Js.number)
| PBool (b : bool)
| PNull
| PStyle (declarations : list (string * string))
| PObject (tag : nat).

Definition isNumber (v : option PropValue) : bool :=
  match v with
  | Some (PNum _) => true
  | _ => false
  end.

(** Truthiness; an absent prop is [undefined]. *)
Definition truthy (v : option PropValue) : bool :=
  match v with
  | Some (PStr s) => negb (atEnd s)
  | Some (PNum (Js.Int z)) => negb (z =? 0)%Z
  | Some (PNum Js.NaN) => false
  | Some (PBool b) => b
  | Some PNull => false
  | Some (PStyle _) => true
  | Some (PObject _) => true
  | None => false
  end.

(** A props object: its own properties by name. *)
Abbreviation Props := (gmap string PropValue).

(** [{ k: v, ...rest }] where [v] may be undefined: an undefined value
    gives no attribute. *)
Definition setProp (k : string) (v : option PropValue) (m : Props) : Props :=
  match v with
  | Some x => <[k := x]> m
  | None => m
  end.

(** [{ ...base, ...props }]: the properties of [props] win. *)
Definition spreadOver (base props : Props) : Props := props ∪ base.

Inductive Tag : Type := TagA | TagImg | NextLink | NextImage.

(** A rendered element: what is rendered and its props. *)
Record Rendered : Type := mkRendered {
  tag : Tag;
  attrs : Props;
}.

(** [String.prototype.startsWith('/')]. *)
Definition startsWithSlash (s : jsstring) : bool :=
  match s with
  | c :: _ => c =? 47
  | [] => false
  end.

Definition externalAnchor (href children : option PropValue) (props : Props)
  : Rendered :=
  {| tag := TagA;
     attrs :=
       setProp "children" children
         (spreadOver
            (setProp "href" href
               (<["target" := PStr (str "_blank")]>
                  (<["rel" := PStr (str "noopener noreferrer")]> ∅)))
            props) |}.

(** The [a] component. [None] is the TypeError of calling [startsWith]
    on an [href] that is neither a string nor null nor undefined. *)
Definition a (all : Props) : option Rendered :=
  let href := all !! "href" in
  let children := all !! "children" in
  let props := delete "href" (delete "children" all) in
  match href with
  | Some (PStr h) =>
      if startsWithSlash h then
        Some {| tag := NextLink;
                attrs := setProp "children" children (<["href" := PStr h]> ∅) |}
      else Some (externalAnchor href children props)
  | Some PNull | None => Some (externalAnchor href children props)
  | Some _ => None
  end.

Definition responsive : PropValue :=
  PStyle [("width", "100%"); ("height", "auto")].

Definition responsiveBlock : PropValue :=
  PStyle [("width", "100%"); ("height", "auto"); ("display", "block")].

(** The [img] component. *)
Definition img (all : Props) : Rendered :=
  let alt := default (PStr []) (all !! "alt") in
  let src := all !! "src" in
  let width := all !! "width" in
  let height := all !! "height" in
  let rest :=
    delete "alt" (delete "src" (delete "width" (delete "height" all))) in
  let hasExplicitSize := isNumber width && isNumber height in
  if hasExplicitSize && truthy src then
    {| tag := NextImage;
       attrs :=
         spreadOver
           (setProp "src" src
              (setProp "width" width
                 (setProp "height" height
                    (<["alt" := alt]>
                       (<["sizes" := PStr (str "100vw")]>
                          (<["style" := responsive]> ∅))))))
           rest |}
  else
    {| tag := TagImg;
       attrs :=
         spreadOver
           (setProp "src" src
              (<["alt" := alt]>
                 (<["style" := responsiveBlock]>
                    (<["loading" := PStr (str "lazy")]> ∅))))
           rest |}.

End Mdx.

(** ** components/theme-toggle.tsx *)

Module Theme.

(** What [useTheme] of next-themes gives: the stored [theme] and the
    [systemTheme] of the operating system; either may be undefined. *)
Record Themes : Type := mkThemes {
  theme : option jsstring;
  systemTheme : option jsstring;
}.

(** The instance: the [mounted] cell and the themes it reads. *)
Record Toggle : Type := mkToggle {
  mounted : bool;
  themes : Themes;
}.

(** [theme === 'system' ? systemTheme : theme]. *)
Definition currentTheme (t : Themes) : option jsstring :=
  if decide (theme t = Some (str "system")) then systemTheme t else theme t.

Definition isDark (t : Themes) : bool :=
  bool_decide (currentTheme t = Some (str "dark")).

Inductive Icon : Type := Sun | Moon.

(** What the component returns: the pulsing placeholder until the effect
    has run, then the button with its icon. *)
Inductive View : Type :=
| Placeholder
| Button (icon : Icon).

Definition render (g : Toggle) : View :=
  if negb (mounted g) then Placeholder
  else Button (if isDark (themes g) then Sun else Moon).

(** [setTheme] of next-themes stores the theme it is given. *)
Definition setTheme (name : jsstring) (t : Themes) : Themes :=
  {| theme := Some name; systemTheme := systemTheme t |}.

(** The button's [onClick]. *)
Definition onClick (t : Themes) : Themes :=
  setTheme (if isDark t then str "light" else str "dark") t.

(** What can happen: the effect runs after the first render, the user
    clicks (there is a button only once mounted), the preference of the
    operating system changes. *)
Inductive Event : Type :=
| EffectRun
| Click
| SystemChange (preference : option jsstring).

Definition step (g : Toggle) (ev : Event) : Toggle :=
  match ev with
  | EffectRun => {| mounted := true; themes := themes g |}
  | Click =>
      if mounted g then {| mounted := true; themes := onClick (themes g) |}
      else g
  | SystemChange preference =>
      {| mounted := mounted g;
         themes := {| theme := theme (themes g); systemTheme := preference |} |}
  end.

Definition run (g : Toggle) (evs : list Event) : Toggle := foldl step g evs.

End Theme.

(** ** lib/metadata.ts *)

Module Meta.

Record BlogMetadata : Type := mkBlogMetadata {
  title : jsstring;
  description : jsstring;
  slug : jsstring;
  publishedTime : option jsstring;
  modifiedTime : option jsstring;
  tags : option (list jsstring);
  author : option jsstring;
}.

(** [a || b] where either side may be undefined: the empty string and
    undefined are falsy. *)
Definition orElse (x y : option jsstring) : option jsstring :=
  match x with
  | Some (_ :: _) => x
  | _ => y
  end.

(** [process.env.NEXT_PUBLIC_BASE_URL || 'https://yourdomain.com']. *)
Definition baseUrl (env : option jsstring) : jsstring :=
  default [] (orElse env (Some (str "https://yourdomain.com"))).

(** [Array.prototype.join] on strings. *)
Fixpoint join (sep : jsstring) (items : list jsstring) : jsstring :=
  match items with
  | [] => []
  | x :: rest =>
      match rest with
      | [] => x
      | _ => x ++ sep ++ join sep rest
      end
  end.

Record OgImage : Type := mkOgImage {
  imageUrl : jsstring;
  imageWidth : Z;
  imageHeight : Z;
  imageAlt : jsstring;
}.

Record OpenGraph : Type := mkOpenGraph {
  ogTitle : jsstring;
  ogDescription : jsstring;
  ogUrl : jsstring;
  ogSiteName : jsstring;
  ogLocale : jsstring;
  ogType : jsstring;
  ogPublishedTime : option jsstring;
  ogModifiedTime : option jsstring;
  ogAuthors : list jsstring;
  ogTags : list jsstring;
  ogImages : list OgImage;
}.

Record Twitter : Type := mkTwitter {
  twCard : jsstring;
  twTitle : jsstring;
  twDescription : jsstring;
  twImages : list jsstring;
  twCreator : jsstring;
}.

(** The [Metadata] object; [authors] holds the [name] of each author
    and [canonical] is [alternates.canonical]. *)
Record Metadata : Type := mkMetadata {
  mdTitle : jsstring;
  mdDescription : jsstring;
  authors : list jsstring;
  keywords : list jsstring;
  openGraph : OpenGraph;
  twitter : Twitter;
  canonical : jsstring;
}.

Definition generateBlogMetadata (env : option jsstring) (m : BlogMetadata)
  : Metadata :=
  let tags := default [] (tags m) in
  let author := default (str "Technical Blog") (author m) in
  let baseUrl := baseUrl env in
  let url := baseUrl ++ str "/blog/" ++ slug m in
  let ogImage := baseUrl ++ str "/og-image.png" in
  {| mdTitle := title m;
     mdDescription := description m;
     authors := [author];
     keywords := tags;
     openGraph :=
       {| ogTitle := title m;
          ogDescription := description m;
          ogUrl := url;
          ogSiteName := str "Technical Blog";
          ogLocale := str "en_US";
          ogType := str "article";
          ogPublishedTime := publishedTime m;
          ogModifiedTime := modifiedTime m;
          ogAuthors := [author];
          ogTags := tags;
          ogImages :=
            [ {| imageUrl := ogImage; imageWidth := 1200;
                 imageHeight := 630; imageAlt := title m |} ] |};
     twitter :=
       {| twCard := str "summary_large_image";
          twTitle := title m;
          twDescription := description m;
          twImages := [ogImage];
          twCreator := str "@yourtwitterhandle" |};
     canonical := url |}.

(** The JSON-LD object; the fixed ['@context'], ['@type'] and nested
    ['@type'] strings are left out. *)
Record StructuredData : Type := mkStructuredData {
  headline : jsstring;
  sdDescription : jsstring;
  authorName : option jsstring;
  datePublished : option jsstring;
  dateModified : option jsstring;
  sdKeywords : option jsstring;
  sdUrl : jsstring;
  sdImage : jsstring;
  publisherName : jsstring;
  logoUrl : jsstring;
}.

Definition generateStructuredData (env : option jsstring) (metadata : BlogMetadata)
  : StructuredData :=
  let baseUrl := baseUrl env in
  {| headline := title metadata;
     sdDescription := description metadata;
     authorName := orElse (author metadata) (Some (str "Technical Blog Author"));
     datePublished := publishedTime metadata;
     dateModified := orElse (modifiedTime metadata) (publishedTime metadata);
     sdKeywords := join (str ", ") <$> tags metadata;
     sdUrl := baseUrl ++ str "/blog/" ++ slug metadata;
     sdImage := baseUrl ++ str "/og-image.png";
     publisherName := str "Technical Blog";
     logoUrl := baseUrl ++ str "/logo.png" |}.

End Meta.

(** ** A sample article *)

Module Sample.

(** An HTML element: node number, local name, identifier, text. *)
Definition el (node : nat) (name ident content : string) : Dom.Element :=
  Dom.mkElement node true None (str name) (str ident) (str content).

Definition intro : Dom.Element := el 1 "h2" "introduction" "Introduction".
Definition section2 : Dom.Element := el 3 "h2" "section-2" "Section 2".
Definition section3 : Dom.Element := el 5 "h3" "section-3" "Section 3".

(** A heading whose children were not a plain string: [headingId] gave
    it the empty identifier. *)
Definition unnamed : Dom.Element := el 8 "h3" "" "Code sample".

Definition article : Dom.Document :=
  [ el 0 "div" "" "Introduction Welcome Section 2 More Section 3 End";
    intro; el 2 "p" "" "Welcome";
    section2; el 4 "p" "" "More";
    section3; el 6 "p" "" "End" ].

(** An article without any h2 or h3. *)
Definition note : Dom.Document :=
  [ el 0 "h1" "note" "Note"; el 1 "p" "" "Short." ].

(** An article in which two headings got the same identifier. *)
Definition setupFirst : Dom.Element := el 10 "h2" "setup" "Setup".
Definition setupAgain : Dom.Element := el 12 "h3" "setup" "Setup!".
Definition twice : Dom.Document :=
  [ intro; setupFirst; el 11 "p" "" "One"; setupAgain; el 13 "p" "" "Two" ].

(** Setting the [id] attribute of node number [n]. *)
Definition rename (n : nat) (ident : string) (e : Dom.Element) : Dom.Element :=
  if decide (Dom.node e = n) then
    Dom.mkElement (Dom.node e) (Dom.html e) (Dom.prefix e) (Dom.localName e)
      (str ident) (Dom.textContent e)
  else e.

(** An article with a drawing in it: an element of a foreign namespace
    that happens to be named h2, before the one heading. *)
Definition chartTitle : Dom.Element :=
  Dom.mkElement 20 false None (str "h2") (str "chart-title") (str "Chart").
Definition drawing : Dom.Document :=
  [ chartTitle; el 21 "h3" "results" "Results"; el 22 "p" "" "Done." ].

(** An article with a heading that has no identifier. *)
Definition draft : Dom.Document :=
  [ intro; el 2 "p" "" "Welcome"; unnamed; el 9 "pre" "" "ls" ].

Definition shown : Toc.World := Toc.step (Toc.initWorld article) Toc.Mount.

End Sample.

(** * Properties *)

(** ** [slugify] *)

Section SlugifyFacts.

Variable lowerNonAscii : jsstring → nat → jsstring.

Local Ltac units :=
  unfold slugChar, isAlnum, lowerAscii, Js.isUpper, Js.isLower, Js.isDigit,
    Js.hyphen in *;
  repeat match goal with
    | H : _ && _ = true |- _ => apply andb_true_iff in H; destruct H
    | H : _ || _ = true |- _ => apply orb_true_iff in H; destruct H
    | H : _ || _ = false |- _ => apply orb_false_iff in H; destruct H
    | H : (_ <=? _) = true |- _ => apply N.leb_le in H
    | H : (_ <? _) = false |- _ => apply N.ltb_ge in H
    | H : (_ =? _) = true |- _ => apply N.eqb_eq in H
    | H : (_ =? _) = false |- _ => apply N.eqb_neq in H
    end.

Lemma alnum_not_hyphen c : isAlnum c = true → (c =? Js.hyphen) = false.
Proof. intros H. apply N.eqb_neq. units; lia. Qed.

Lemma alnum_slugChar c : isAlnum c = true → slugChar c = true.
Proof. unfold isAlnum, slugChar. intros ->. done. Qed.

Lemma slugChar_cases c :
  slugChar c = true → isAlnum c = true ∨ (isAlnum c = false ∧ c = Js.hyphen).
Proof.
  intros H. destruct (isAlnum c) eqn:E; [by left | right]. split; [done |].
  unfold slugChar in H. unfold isAlnum in E. rewrite E in H. simpl in H.
  by apply N.eqb_eq.
Qed.

Lemma replaceRuns_chars b s :
  Forall (λ c, slugChar c = true) (replaceRuns b s).
Proof.
  revert b. induction s as [|c t IH]; intros b; simpl; [constructor |].
  destruct (isAlnum c) eqn:E.
  - constructor; [by apply alnum_slugChar | apply IH].
  - destruct b; [apply IH |]. constructor; [done | apply IH].
Qed.

Lemma replaceRuns_single b s : singleHyphens b (replaceRuns b s) = true.
Proof.
  revert b. induction s as [|c t IH]; intros b; simpl; [done |].
  destruct (isAlnum c) eqn:E.
  - simpl. rewrite (alnum_not_hyphen _ E). apply IH.
  - destruct b; [apply IH |]. simpl. apply IH.
Qed.

Lemma stripEdges_chars (P : N → Prop) b s :
  Forall P s → Forall P (stripEdges b s).
Proof.
  intros H. revert b. induction H as [|c t Hc Ht IH]; intros b; simpl;
    [constructor |].
  destruct ((c =? Js.hyphen) && (b || atEnd t)); [apply IH |].
  constructor; [done | apply IH].
Qed.

Lemma singleHyphens_weaken s :
  singleHyphens true s = true → singleHyphens false s = true.
Proof. destruct s as [|c t]; simpl; [done |]. by destruct (c =? Js.hyphen). Qed.

Lemma stripEdges_false_single b s :
  singleHyphens b s = true → singleHyphens b (stripEdges false s) = true.
Proof.
  revert b. induction s as [|c t IH]; intros b H; simpl in *; [done |].
  destruct (c =? Js.hyphen) eqn:E; simpl.
  - apply andb_true_iff in H as [Hb Ht].
    destruct t as [|c' t']; simpl; [done |].
    change (singleHyphens b (c :: stripEdges false (c' :: t')) = true).
    simpl singleHyphens at 1. rewrite E, Hb. simpl. by apply IH.
  - rewrite E. by apply IH.
Qed.

Lemma stripEdges_false_last b s :
  singleHyphens b s = true → last (stripEdges false s) ≠ Some Js.hyphen.
Proof.
  revert b. induction s as [|c t IH]; intros b H; simpl in *; [done |].
  destruct (c =? Js.hyphen) eqn:E; simpl.
  - apply andb_true_iff in H as [_ Ht].
    destruct t as [|c' t']; simpl; [done |].
    specialize (IH true Ht). simpl in Ht.
    destruct (c' =? Js.hyphen) eqn:E'; [done |].
    simpl in IH. rewrite E' in IH. simpl in IH.
    exact IH.
  - specialize (IH false H).
    destruct (stripEdges false t) as [|c' u] eqn:Eu; simpl.
    + intros [= ->]. by rewrite N.eqb_refl in E.
    + exact IH.
Qed.

Lemma stripEdges_true_head s :
  singleHyphens false s = true → head (stripEdges true s) ≠ Some Js.hyphen.
Proof.
  destruct s as [|c t]; simpl; [done |]. intros H.
  destruct (c =? Js.hyphen) eqn:E; simpl.
  - destruct t as [|c' t']; simpl in *; [done |].
    destruct (c' =? Js.hyphen) eqn:E'; [done |]. simpl.
    intros [= ->]. by rewrite N.eqb_refl in E'.
  - intros [= ->]. by rewrite N.eqb_refl in E.
Qed.

Lemma singleHyphens_no_adjacent b s (i : nat) :
  singleHyphens b s = true →
  s !! i = Some Js.hyphen → s !! S i ≠ Some Js.hyphen.
Proof.
  revert b i. induction s as [|c t IH]; intros b i H Hi; [done |].
  simpl in H. destruct i as [|i]; simpl in *.
  - injection Hi as ->. rewrite N.eqb_refl in H.
    apply andb_true_iff in H as [_ Ht].
    destruct t as [|c' t']; simpl in *; [done |].
    intros [= ->]. by rewrite N.eqb_refl in Ht.
  - destruct (c =? Js.hyphen).
    + apply andb_true_iff in H as [_ Ht]. by apply (IH true).
    + by apply (IH false).
Qed.

Lemma toLowerCaseFrom_slug whole pos s :
  Forall (λ c, slugChar c = true) s → toLowerCaseFrom lowerNonAscii whole pos s = s.
Proof.
  intros H. revert pos. induction H as [|c t Hc Ht IH]; intros pos; simpl;
    [done |].
  rewrite IH. destruct (c <? 128) eqn:E128.
  - simpl. f_equal. unfold lowerAscii. destruct (Js.isUpper c) eqn:EU; [|done].
    exfalso. units; lia.
  - exfalso. units; lia.
Qed.

Lemma replaceRuns_slug b s :
  Forall (λ c, slugChar c = true) s → singleHyphens b s = true →
  replaceRuns b s = s.
Proof.
  intros H. revert b. induction H as [|c t Hc Ht IH]; intros b Hs; simpl in *;
    [done |].
  destruct (slugChar_cases _ Hc) as [E | [E ->]]; rewrite E.
  - rewrite (alnum_not_hyphen _ E) in Hs. by rewrite IH.
  - rewrite N.eqb_refl in Hs. apply andb_true_iff in Hs as [Hb Hs].
    destruct b; [done |]. by rewrite IH.
Qed.

Lemma stripEdges_false_id s :
  last s ≠ Some Js.hyphen → stripEdges false s = s.
Proof.
  induction s as [|c t IH]; intros H; simpl; [done |].
  destruct t as [|c' t'].
  - simpl. destruct (c =? Js.hyphen) eqn:E; [|done].
    apply N.eqb_eq in E. by subst.
  - rewrite andb_false_r. f_equal. by apply IH.
Qed.

Lemma stripEdges_true_id s :
  head s ≠ Some Js.hyphen → last s ≠ Some Js.hyphen → stripEdges true s = s.
Proof.
  destruct s as [|c t]; simpl; [done |]. intros Hh Hl.
  destruct (c =? Js.hyphen) eqn:E.
  - apply N.eqb_eq in E. by subst.
  - simpl. f_equal. destruct t as [|c' t']; [done |].
    by apply stripEdges_false_id.
Qed.

Lemma stripEdges_true_unfold c t :
  stripEdges true (c :: t) =
    if c =? Js.hyphen then stripEdges false t else stripEdges false (c :: t).
Proof. simpl. by destruct (c =? Js.hyphen). Qed.

Lemma stripEdges_true_single s :
  singleHyphens false s = true → singleHyphens false (stripEdges true s) = true.
Proof.
  destruct s as [|c t]; [done |]. rewrite stripEdges_true_unfold.
  intros H. destruct (c =? Js.hyphen) eqn:E.
  - simpl in H. rewrite E in H. simpl in H.
    by apply singleHyphens_weaken, stripEdges_false_single.
  - by apply stripEdges_false_single.
Qed.

Lemma stripEdges_true_last s :
  singleHyphens false s = true → last (stripEdges true s) ≠ Some Js.hyphen.
Proof.
  destruct s as [|c t]; [done |]. rewrite stripEdges_true_unfold.
  intros H. destruct (c =? Js.hyphen) eqn:E.
  - simpl in H. rewrite E in H. simpl in H.
    by apply (stripEdges_false_last true).
  - by apply (stripEdges_false_last false).
Qed.

(** A slug is a fixed point of [slugify]. *)
Lemma slugify_fixed s :
  Forall (λ c, slugChar c = true) s → singleHyphens false s = true →
  head s ≠ Some Js.hyphen → last s ≠ Some Js.hyphen →
  slugify lowerNonAscii s = s.
Proof.
  intros Hc Hs Hh Hl. unfold slugify, toLowerCase.
  rewrite toLowerCaseFrom_slug by done.
  rewrite replaceRuns_slug by done.
  by apply stripEdges_true_id.
Qed.

End SlugifyFacts.

(** C10. [slugify] is a function of its input text alone (and of the
    platform's case tables). For every input, its result consists only of
    lower-case letters, digits and hyphens; no hyphen is followed by a
    hyphen; the result neither starts nor ends with a hyphen (it may be
    empty); and applying [slugify] to the result gives the result back. *)
Theorem slugify_slug_idempotent
    (lowerNonAscii : jsstring → nat → jsstring) (s : jsstring) :
  let slug := slugify lowerNonAscii s in
  Forall (λ c, Js.isLower c = true ∨ Js.isDigit c = true ∨ c = Js.hyphen) slug
  ∧ (∀ i : nat, slug !! i = Some Js.hyphen → slug !! S i ≠ Some Js.hyphen)
  ∧ head slug ≠ Some Js.hyphen
  ∧ last slug ≠ Some Js.hyphen
  ∧ slugify lowerNonAscii slug = slug.
Proof.
  intros slug.
  pose proof (replaceRuns_chars false (toLowerCase lowerNonAscii s)) as Hc.
  pose proof (replaceRuns_single false (toLowerCase lowerNonAscii s)) as Hs.
  assert (Forall (λ c, slugChar c = true) slug) as Hc'
    by (by apply stripEdges_chars).
  assert (singleHyphens false slug = true) as Hs'
    by (by apply stripEdges_true_single).
  assert (head slug ≠ Some Js.hyphen) as Hh by (by apply stripEdges_true_head).
  assert (last slug ≠ Some Js.hyphen) as Hl by (by apply stripEdges_true_last).
  split_and!; try done.
  - eapply Forall_impl; [exact Hc' |]. intros c H. unfold slugChar in H.
    apply orb_true_iff in H as [H | H]; [apply orb_true_iff in H as [H | H] |];
      [by left | by right; left | right; right; by apply N.eqb_eq].
  - intros i. by apply (singleHyphens_no_adjacent false).
  - by apply slugify_fixed.
Qed.

(** The slug of a title with capitals, punctuation and repeated
    separators, under any case tables. *)
Example slugify_title lowerNonAscii :
  slugify lowerNonAscii (str "  Hello, World!  --Foo__bar-2 ")
  = str "hello-world-foo-bar-2".
Proof. reflexivity. Qed.

Example slugify_only_separators lowerNonAscii :
  slugify lowerNonAscii (str "?!") = [].
Proof. reflexivity. Qed.

(** A unit outside ASCII whose lower case is an ASCII letter: the Kelvin
    sign U+212A lowers to "k" and stays in the slug; any other unit
    outside ASCII ends up in a hyphen. *)
Example slugify_kelvin :
  slugify (λ whole pos, if decide (whole !! pos = Some 8490) then [107]
                        else option_list (whole !! pos))
    ([8490; 233] ++ str " Scale")
  = str "k-scale".
Proof. reflexivity. Qed.

(** The identifier of a heading whose children are a plain string, and of
    one whose children are not. *)
Example headingId_string lowerNonAscii :
  headingId lowerNonAscii (Some (str "Getting Started")) = str "getting-started".
Proof. reflexivity. Qed.

Example headingId_markup lowerNonAscii :
  headingId lowerNonAscii None = [].
Proof. reflexivity. Qed.

(** ** The table of contents *)

Import Toc.

Section TocFacts.

Implicit Types (w : World) (entries : list Dom.Entry) (doc : Dom.Document).

Lemma foldl_observe elements w :
  foldl (λ w' element, observe element w') w elements
  = {| document := document w; mounted := mounted w; state := state w;
       observed := observed w ++ elements; teardown := teardown w;
       writes := writes w; actions := actions w |}.
Proof.
  revert w. induction elements as [|e els IH]; intros w; simpl.
  - rewrite app_nil_r. by destruct w.
  - rewrite IH. simpl. by rewrite <- app_assoc.
Qed.

Lemma doMount_eq w :
  doMount w
  = let items := toItem <$> Dom.querySelectorAll (document w) in
    {| document := document w; mounted := true;
       state := {| headings := items; activeId := [] |};
       observed := Dom.querySelectorAll (document w);
       teardown := Some Disconnect;
       writes := writes w ++ [SetHeadings items]; actions := actions w |}.
Proof. unfold doMount, effect. simpl. by rewrite foldl_observe. Qed.

Lemma mount_initWorld doc :
  step (initWorld doc) Mount
  = {| document := doc; mounted := true;
       state := {| headings := toItem <$> Dom.querySelectorAll doc;
                   activeId := [] |};
       observed := Dom.querySelectorAll doc;
       teardown := Some Disconnect;
       writes := [SetHeadings (toItem <$> Dom.querySelectorAll doc)];
       actions := [] |}.
Proof. change (step (initWorld doc) Mount) with (doMount (initWorld doc)).
       by rewrite doMount_eq. Qed.

Lemma observerCallback_unmounted entries w :
  mounted w = false → observerCallback entries w = w.
Proof.
  intros Hm. unfold observerCallback.
  induction entries as [|e es IH]; simpl; [done |].
  unfold onEntry at 2, setActiveId. rewrite Hm. by destruct (Dom.isIntersecting e).
Qed.

Lemma observerCallback_mounted entries w :
  mounted w = true →
  observerCallback entries w
  = {| document := document w; mounted := true;
       state := {| headings := headings (state w);
                   activeId := default (activeId (state w))
                                 (last (intersectingIds entries)) |};
       observed := observed w; teardown := teardown w;
       writes := writes w ++ (SetActiveId <$> intersectingIds entries);
       actions := actions w |}.
Proof.
  unfold observerCallback, intersectingIds.
  revert w. induction entries as [|e es IH]; intros w Hm; simpl.
  - rewrite app_nil_r. destruct w as [? ? [? ?] ? ? ? ?]. simpl in *. by subst.
  - unfold onEntry at 2, setActiveId. rewrite Hm.
    destruct (Dom.isIntersecting e) eqn:Ei.
    + rewrite IH by done. simpl.
      rewrite filter_cons_True by done. rewrite fmap_cons.
      rewrite <- app_assoc. simpl. f_equal. f_equal.
      rewrite last_cons. by destruct (last _).
    + rewrite IH by done. by rewrite filter_cons_False by (by rewrite Ei).
Qed.

Lemma deliver_cases entries w :
  deliver entries w = w
  ∨ ∃ batch, deliver entries w = observerCallback batch w.
Proof.
  unfold deliver. destruct (filter _ entries) as [|e es]; [by left |].
  right. by exists (e :: es).
Qed.

Lemma deliver_no_targets entries w : observed w = [] → deliver entries w = w.
Proof.
  intros Ho. unfold deliver. rewrite Ho.
  replace (filter _ entries) with (@nil Dom.Entry); [done |].
  induction entries as [|e es IH]; [done |].
  rewrite filter_cons_False; [done |]. apply not_elem_of_nil.
Qed.

(** Whatever the world, the callback leaves everything but [activeId] and
    the record of setter calls as it was. *)
Lemma observerCallback_frame entries w :
  let w' := observerCallback entries w in
  document w' = document w ∧ mounted w' = mounted w
  ∧ headings (state w') = headings (state w)
  ∧ observed w' = observed w ∧ teardown w' = teardown w
  ∧ actions w' = actions w.
Proof.
  destruct (mounted w) eqn:Hm; simpl.
  - by rewrite observerCallback_mounted.
  - by rewrite observerCallback_unmounted.
Qed.

(** Only a mount writes [headings]. *)
Lemma step_headings w ev :
  isMount ev = false → headings (state (step w ev)) = headings (state w).
Proof.
  destruct ev as [| |es|es|hd|doc|ch]; intros Hev; simpl; try done.
  - destruct (mounted w); [|done]. unfold doUnmount.
    by destruct (teardown w) as [[]|].
  - destruct (deliver_cases es w) as [-> | [batch ->]]; [done |].
    apply observerCallback_frame.
  - apply observerCallback_frame.
  - unfold doClick. by destruct (_ && _).
Qed.

Lemma run_headings w evs :
  Forall (λ ev, isMount ev = false) evs →
  headings (state (run w evs)) = headings (state w).
Proof.
  intros H. revert w. unfold run.
  induction H as [|ev evs Hev Hevs IH]; intros w; simpl; [done |].
  rewrite IH. by apply step_headings.
Qed.

Lemma step_holdsCleanup w ev : holdsCleanup w → holdsCleanup (step w ev).
Proof.
  unfold holdsCleanup. intros Hw.
  destruct ev as [| |es|es|hd|doc|ch]; simpl.
  - destruct (mounted w) eqn:Hm; [auto |]. by rewrite doMount_eq.
  - destruct (mounted w) eqn:Hm; [by unfold doUnmount | congruence].
  - destruct (deliver_cases es w) as [-> | [batch ->]]; [done |].
    destruct (observerCallback_frame batch w) as (_ & -> & _ & _ & -> & _).
    done.
  - destruct (observerCallback_frame es w) as (_ & -> & _ & _ & -> & _).
    done.
  - unfold doClick. by destruct (_ && _).
  - done.
  - done.
Qed.

Lemma run_holdsCleanup w evs : holdsCleanup w → holdsCleanup (run w evs).
Proof.
  revert w. unfold run. induction evs as [|ev evs IH]; intros w Hw; simpl;
    [done |].
  by apply IH, step_holdsCleanup.
Qed.

(** An unmounted instance without targets stays as it is until the next
    mount. *)
Lemma step_unmounted w ev :
  mounted w = false → observed w = [] → isMount ev = false →
  let w' := step w ev in
  mounted w' = false ∧ observed w' = [] ∧ state w' = state w
  ∧ writes w' = writes w.
Proof.
  intros Hm Ho Hev. destruct ev as [| |es|es|hd|doc|ch]; simpl; try done.
  - by rewrite Hm.
  - by rewrite deliver_no_targets.
  - by rewrite observerCallback_unmounted.
  - unfold doClick. by rewrite Hm.
  - by rewrite Ho.
Qed.

Lemma run_unmounted w evs :
  mounted w = false → observed w = [] →
  Forall (λ ev, isMount ev = false) evs →
  let w' := run w evs in
  mounted w' = false ∧ observed w' = [] ∧ state w' = state w
  ∧ writes w' = writes w.
Proof.
  intros Hm Ho H. revert w Hm Ho. unfold run.
  induction H as [|ev evs Hev Hevs IH]; intros w Hm Ho; simpl; [done |].
  destruct (step_unmounted w ev Hm Ho Hev) as (Hm' & Ho' & Hs' & Hw').
  destruct (IH _ Hm' Ho') as (? & ? & ? & ?).
  split_and!; congruence.
Qed.

Lemma step_writtenOnce base found w ev :
  isMount ev = false → isUnmount ev = false →
  writtenOnce base found w → writtenOnce base found (step w ev).
Proof.
  intros Hm Hu (Hmt & ids & Hwr & Hst).
  assert (∀ batch, writtenOnce base found (observerCallback batch w)) as Hcb.
  { intros batch. rewrite observerCallback_mounted by done.
    split; [done |]. exists (ids ++ intersectingIds batch). simpl.
    rewrite Hwr, Hst, fmap_app, last_app, <- app_assoc. simpl.
    split; [done |]. by destruct (last (intersectingIds batch)). }
  destruct ev as [| |es|es|hd|doc|ch]; simpl; try done.
  - destruct (deliver_cases es w) as [-> | [batch ->]]; [|done].
    split; [done |]. by exists ids.
  - unfold doClick. destruct (_ && _); (split; [done |]); by exists ids.
  - split; [done |]. by exists ids.
  - split; [done |]. by exists ids.
Qed.

Lemma run_writtenOnce base found w evs :
  Forall (λ ev, isMount ev = false ∧ isUnmount ev = false) evs →
  writtenOnce base found w → writtenOnce base found (run w evs).
Proof.
  intros H. revert w. unfold run.
  induction H as [|ev evs [Hm Hu] Hevs IH]; intros w Hw; simpl; [done |].
  by apply IH, step_writtenOnce.
Qed.

Lemma mount_writtenOnce w :
  mounted w = false →
  writtenOnce (writes w) (toItem <$> Dom.querySelectorAll (document w))
    (step w Mount).
Proof.
  intros Hm. simpl. rewrite Hm, doMount_eq. simpl.
  split; [done |]. by exists [].
Qed.

Lemma orElse_empty (a : jsstring) : Js.orElse a [] = a.
Proof. by destruct a. Qed.

Lemma matchesH2H3_localName (e : Dom.Element) :
  Dom.matchesH2H3 e = true →
  Dom.localName e = str "h2" ∨ Dom.localName e = str "h3".
Proof.
  unfold Dom.matchesH2H3. intros H. apply orb_true_iff in H as [H | H];
    apply bool_decide_eq_true in H; auto.
Qed.

Lemma plainHtml_tagName (e : Dom.Element) :
  Dom.plainHtml e = true →
  Dom.tagName e = Dom.upperAscii <$> Dom.localName e.
Proof.
  unfold Dom.plainHtml, Dom.tagName, Dom.qualifiedName.
  intros [-> Hp%bool_decide_eq_true]%andb_true_iff. by rewrite Hp.
Qed.

(** For an HTML element without prefix the tag name is the local name in
    upper case. *)
Lemma matchesH2H3_tag (e : Dom.Element) :
  Dom.matchesH2H3 e = true → Dom.plainHtml e = true →
  Dom.tagName e = str "H2" ∨ Dom.tagName e = str "H3".
Proof.
  intros Hm Hp. rewrite (plainHtml_tagName e Hp).
  destruct (matchesH2H3_localName e Hm) as [-> | ->]; auto.
Qed.

Lemma matchesH2H3_isHeading (e : Dom.Element) :
  Dom.matchesH2H3 e = true → Dom.plainHtml e = true → Dom.isHeading e = true.
Proof.
  intros Hm [Hh _]%andb_true_iff. unfold Dom.isHeading. rewrite Hh.
  by destruct (matchesH2H3_localName e Hm) as [-> | ->].
Qed.

Lemma toItem_level (e : Dom.Element) :
  (Dom.tagName e = str "H2" → level (toItem e) = Js.Int 2)
  ∧ (Dom.tagName e = str "H3" → level (toItem e) = Js.Int 3).
Proof. unfold toItem. cbn [level]. split; by intros ->. Qed.

Lemma querySelectorAll_headings doc :
  Forall (λ e, Dom.matchesH2H3 e = true → Dom.plainHtml e = true) doc →
  Forall (λ e, Dom.isHeading e = true → Dom.matchesH2H3 e = true) doc →
  Dom.querySelectorAll doc = filter (λ e, Dom.isHeading e = true) doc.
Proof.
  unfold Dom.querySelectorAll. intros Hp.
  induction 1 as [|e els He Hels IH]; [done |].
  apply Forall_cons in Hp as [Hpe Hp].
  destruct (Dom.matchesH2H3 e) eqn:Em.
  - rewrite !filter_cons_True; [by rewrite IH | | done].
    apply matchesH2H3_isHeading; auto.
  - rewrite !filter_cons_False; [by apply IH | | by rewrite Em].
    intros Hh. apply He in Hh. congruence.
Qed.

Lemma getElementById_Some doc i el :
  Dom.getElementById doc i = Some el → el ∈ doc ∧ Dom.id el = i ∧ i ≠ [].
Proof.
  unfold Dom.getElementById. destruct (decide (i = [])); [done |].
  intros Hhd. apply head_Some_elem_of in Hhd.
  apply list_elem_of_filter in Hhd as [Hid Hdoc]. done.
Qed.

Lemma getElementById_hasId doc i :
  Dom.hasId doc i → is_Some (Dom.getElementById doc i).
Proof.
  intros (Hi & e & He & Hid). unfold Dom.getElementById.
  destruct (decide (i = [])); [done |].
  apply head_is_Some. intros Hnil.
  by apply (filter_nil_not_elem_of _ _ e Hnil).
Qed.

Lemma getElementById_None doc i :
  ¬ Dom.hasId doc i → Dom.getElementById doc i = None.
Proof.
  intros Hno. destruct (Dom.getElementById doc i) as [el|] eqn:E; [|done].
  apply getElementById_Some in E as (? & ? & ?). destruct Hno.
  split; [done |]. by exists el.
Qed.

End TocFacts.

(** C2. The observer's callback goes through a batch in the order of
    delivery; an entry that is intersecting sets [activeId] to its target's
    identifier and any other entry changes nothing. After the batch,
    [activeId] is the identifier of the last intersecting entry, or what it
    was when no entry intersects. A report of "section-2" makes it
    "section-2", and a following report of "section-3" makes it
    "section-3". *)
Theorem observerCallback_last_intersecting (w : World) (entries : list Dom.Entry) :
  mounted w = true →
  (∀ before after,
     observerCallback (before ++ after) w
     = observerCallback after (observerCallback before w))
  ∧ (∀ w' entry, mounted w' = true →
       if Dom.isIntersecting entry
       then activeId (state (onEntry w' entry)) = Dom.id (Dom.target entry)
       else onEntry w' entry = w')
  ∧ activeId (state (observerCallback entries w))
    = default (activeId (state w)) (last (intersectingIds entries))
  ∧ (∀ t2 t3, Dom.id t2 = str "section-2" → Dom.id t3 = str "section-3" →
       let w2 := observerCallback [Dom.mkEntry true t2] w in
       let w3 := observerCallback [Dom.mkEntry true t3] w2 in
       activeId (state w2) = str "section-2"
       ∧ activeId (state w3) = str "section-3").
Proof.
  intros Hm. split_and!.
  - intros before after. apply foldl_app.
  - intros w' entry Hm'. unfold onEntry, setActiveId.
    destruct (Dom.isIntersecting entry); [|done]. by rewrite Hm'.
  - by rewrite observerCallback_mounted.
  - intros t2 t3 H2 H3. simpl. unfold onEntry, setActiveId. simpl.
    rewrite Hm. simpl. by rewrite H2, H3.
Qed.

Lemma observerCallback_last_intersecting_witness :
  mounted Sample.shown = true
  ∧ activeId (state (observerCallback
                       [ Dom.mkEntry true Sample.section2;
                         Dom.mkEntry false Sample.intro;
                         Dom.mkEntry true Sample.section3;
                         Dom.mkEntry false Sample.section2 ] Sample.shown))
    = str "section-3".
Proof.
  split; [reflexivity |].
  exact (proj1 (proj2 (proj2
    (observerCallback_last_intersecting Sample.shown _ eq_refl)))).
Defined.

(** C3. Whatever happened to an instance before, unmounting it while it is
    mounted runs the effect's cleanup: the observer is disconnected, so no
    target stays registered, and React holds no cleanup any more. From
    then on, until a new mount, no report changes [activeId] (or anything
    else of the state), whether the browser offers it to the observer or
    the callback is fired directly; no setter call takes effect and the
    observer stays without targets. *)
Theorem unmount_releases_observer (doc : Dom.Document) (pre post : list Event) :
  mounted (run (initWorld doc) pre) = true →
  Forall (λ ev, isMount ev = false) post →
  let w := run (initWorld doc) pre in
  let gone := step w Unmount in
  let later := run gone post in
  (mounted gone = false ∧ observed gone = [] ∧ teardown gone = None)
  ∧ (activeId (state later) = activeId (state gone)
     ∧ state later = state gone
     ∧ writes later = writes gone
     ∧ observed later = [] ∧ mounted later = false).
Proof.
  intros Hm Hpost w gone later. change (mounted w = true) in Hm.
  assert (holdsCleanup w) as Hc.
  { apply run_holdsCleanup. unfold holdsCleanup. done. }
  assert (mounted gone = false ∧ observed gone = [] ∧ teardown gone = None)
    as (Hgm & Hgo & Hgt).
  { unfold gone, step. rewrite Hm. unfold doUnmount.
    rewrite (Hc Hm). done. }
  split; [done |].
  destruct (run_unmounted gone post Hgm Hgo Hpost) as (? & ? & Hst & ?).
  fold later in Hst. split_and!; try done. by rewrite Hst.
Qed.

Lemma unmount_releases_observer_witness :
  let post := [ Fire [Dom.mkEntry true Sample.section3];
                Intersect [Dom.mkEntry true Sample.intro];
                Click (toItem Sample.section2);
                Unmount ] in
  let gone := run (initWorld Sample.article)
                [Mount; Fire [Dom.mkEntry true Sample.section2]; Unmount] in
  observed gone = []
  ∧ activeId (state gone) = str "section-2"
  ∧ activeId (state (run gone post)) = str "section-2".
Proof.
  intros post gone.
  pose proof (unmount_releases_observer Sample.article
                [Mount; Fire [Dom.mkEntry true Sample.section2]] post
                ltac:(vm_compute; reflexivity)
                ltac:(repeat constructor)) as H.
  vm_compute in H. vm_compute.
  destruct H as ((_ & Ho & _) & (Ha & _)).
  split; [exact Ho |]. split; [reflexivity |]. exact Ha.
Defined.

(** C9. For every mount, the scan of the effect sets [headings] once, to
    the entries of the h2 and h3 elements the document has at that moment.
    Whatever follows during the mount (reports, direct calls of the
    callback, clicks, changes of the document) leaves [headings] as it is:
    the only setter calls that follow set [activeId], and the two cells
    hold exactly what the component's setter calls put there. *)
Theorem headings_written_once_per_mount (w0 : World) (evs : list Event) :
  mounted w0 = false →
  Forall (λ ev, isMount ev = false ∧ isUnmount ev = false) evs →
  let found := toItem <$> Dom.querySelectorAll (document w0) in
  let w := run (step w0 Mount) evs in
  headings (state (step w0 Mount)) = found
  ∧ headings (state w) = found
  ∧ (∃ ids,
       writes w = writes w0 ++ SetHeadings found :: (SetActiveId <$> ids)
       ∧ state w = {| headings := found; activeId := default [] (last ids) |})
  ∧ (∀ entries,
       headings (state (step w (Intersect entries))) = found
       ∧ headings (state (step w (Fire entries))) = found)
  ∧ (∀ heading doc,
       state (step w (Click heading)) = state w
       ∧ state (step w (Mutate doc)) = state w).
Proof.
  intros Hm Hevs found w.
  pose proof (mount_writtenOnce w0 Hm) as H1. fold found in H1.
  pose proof (run_writtenOnce _ _ _ evs Hevs H1) as H. fold w in H.
  destruct H1 as (_ & ids1 & _ & Hst1).
  destruct H as (Hmw & ids & Hwr & Hst).
  split_and!.
  - by rewrite Hst1.
  - by rewrite Hst.
  - by exists ids.
  - intros entries. rewrite !step_headings by done. by rewrite Hst.
  - intros heading doc. simpl. unfold doClick. by destruct (_ && _).
Qed.

Lemma headings_written_once_per_mount_witness :
  let w := run (initWorld Sample.article)
             [ Mount;
               Fire [Dom.mkEntry true Sample.section2];
               Mutate Sample.draft;
               Intersect [Dom.mkEntry true Sample.section3];
               Click (toItem Sample.intro) ] in
  headings (state w) = toItem <$> [Sample.intro; Sample.section2; Sample.section3].
Proof.
  intros w.
  pose proof (proj1 (proj2
    (headings_written_once_per_mount (initWorld Sample.article)
       [ Fire [Dom.mkEntry true Sample.section2];
         Mutate Sample.draft;
         Intersect [Dom.mkEntry true Sample.section3];
         Click (toItem Sample.intro) ]
       eq_refl ltac:(repeat constructor)))) as H.
  vm_compute in H. vm_compute. exact H.
Defined.

(** C1, as stated, fails: the selector matches by local name, in any
    namespace. In [Sample.drawing] the only heading element is an h3 with
    an identifier of its own, and the list built on mount has two
    entries, the first for an element of a foreign namespace that is
    named h2. *)
Lemma foreign_h2_is_listed : ¬ listsOnePerHeading Sample.drawing.
Proof.
  intros Hclaim.
  assert (length (headings (state (step (initWorld Sample.drawing) Mount)))
          = length (filter (λ e, Dom.isHeading e = true) Sample.drawing)) as H.
  { apply Hclaim.
    - repeat constructor; vm_compute; auto.
    - repeat constructor; vm_compute; congruence.
    - by apply (bool_decide_unpack _). }
  vm_compute in H. discriminate H.
Qed.

(** C1, amended. When every element of the document that is named h2 or
    h3 is an HTML element without namespace prefix, and the heading
    elements of the document are all h2 or h3 and carry distinct,
    non-empty identifiers, the list the component holds after its mount
    has one entry per heading element, in document order; the entry's
    [id] and [text] are the element's identifier and text content and its
    [level] is 2 for an h2 and 3 for an h3. *)
Theorem mount_extracts_headings (doc : Dom.Document) :
  Forall (λ e, Dom.matchesH2H3 e = true → Dom.plainHtml e = true) doc →
  Forall (λ e, Dom.isHeading e = true → Dom.matchesH2H3 e = true) doc →
  Forall (λ e, Dom.isHeading e = true → Dom.id e ≠ []) doc →
  NoDup (Dom.id <$> filter (λ e, Dom.isHeading e = true) doc) →
  let elements := filter (λ e, Dom.isHeading e = true) doc in
  let found := headings (state (step (initWorld doc) Mount)) in
  length found = length elements
  ∧ ∀ (k : nat) e, elements !! k = Some e →
      ∃ item, found !! k = Some item
        ∧ id item = Dom.id e
        ∧ text item = Dom.textContent e
        ∧ ((Dom.tagName e = str "H2" ∧ level item = Js.Int 2)
           ∨ (Dom.tagName e = str "H3" ∧ level item = Js.Int 3)).
Proof.
  intros Hplain Hlv _ _ elements found.
  assert (found = toItem <$> elements) as ->.
  { unfold found, elements. rewrite mount_initWorld. simpl.
    by rewrite querySelectorAll_headings. }
  split; [by rewrite length_fmap |].
  intros k e Hk. exists (toItem e). rewrite list_lookup_fmap, Hk.
  split_and!; [done | done | apply orElse_empty |].
  apply list_elem_of_lookup_2, list_elem_of_filter in Hk as [Hh He].
  rewrite Forall_forall in Hlv, Hplain.
  assert (Dom.matchesH2H3 e = true) as Hm by (by apply Hlv).
  destruct (toItem_level e) as [L2 L3].
  destruct (matchesH2H3_tag e Hm (Hplain e He Hm)) as [Ht | Ht]; auto.
Qed.

Lemma mount_extracts_headings_witness :
  headings (state Sample.shown)
  = [ {| id := str "introduction"; text := str "Introduction"; level := Js.Int 2 |};
      {| id := str "section-2"; text := str "Section 2"; level := Js.Int 2 |};
      {| id := str "section-3"; text := str "Section 3"; level := Js.Int 3 |} ]
  ∧ length (headings (state Sample.shown)) = 3%nat.
Proof.
  split; [reflexivity |].
  refine (proj1 (mount_extracts_headings Sample.article _ _ _ _)).
  - repeat constructor; vm_compute; auto.
  - repeat constructor; vm_compute; auto.
  - repeat constructor; vm_compute; congruence.
  - by apply (bool_decide_unpack _).
Defined.

(** C4. Clicking the anchor of an entry whose identifier some element of
    the document has: the handler calls [preventDefault], so the browser
    does not follow the anchor, and then makes one call of
    [scrollIntoView], with smooth behaviour and the start of the block, on
    the element [getElementById] finds for the entry's identifier (the
    first one that has it). The handler returns normally and the state is
    untouched. *)
Theorem click_scrolls_to_target (w : World) (heading : TocItem) :
  mounted w = true →
  heading ∈ headings (state w) →
  Dom.hasId (document w) (id heading) →
  ∃ el,
    Dom.getElementById (document w) (id heading) = Some el
    ∧ el ∈ document w ∧ Dom.id el = id heading
    ∧ onClick (document w) heading
      = ([Dom.PreventDefault; Dom.ScrollIntoView el Dom.Smooth Dom.BlockStart],
         Dom.Normal)
    ∧ actions (step w (Click heading))
      = actions w
        ++ [Dom.PreventDefault; Dom.ScrollIntoView el Dom.Smooth Dom.BlockStart]
    ∧ Dom.defaultNavigation (fst (onClick (document w) heading)) = false
    ∧ length (filter (λ a, Dom.isScroll a = true)
                (fst (onClick (document w) heading))) = 1%nat
    ∧ state (step w (Click heading)) = state w.
Proof.
  intros Hm Hin Hid.
  destruct (getElementById_hasId _ _ Hid) as [el Hel].
  destruct (getElementById_Some _ _ _ Hel) as (Hdoc & Heq & _).
  exists el. simpl. unfold doClick, onClick. rewrite Hm, Hel.
  rewrite bool_decide_eq_true_2 by done. simpl.
  split_and!; try done.
Qed.

Lemma click_scrolls_to_target_witness :
  actions (step Sample.shown (Click (toItem Sample.section2)))
  = [Dom.PreventDefault;
     Dom.ScrollIntoView Sample.section2 Dom.Smooth Dom.BlockStart].
Proof.
  destruct (click_scrolls_to_target Sample.shown (toItem Sample.section2))
    as (el & Hel & _ & _ & _ & Hacts & _).
  - reflexivity.
  - apply list_elem_of_lookup. by exists 1%nat.
  - split; [done |]. exists Sample.section2.
    split; [apply list_elem_of_lookup; by exists 3%nat | reflexivity].
  - vm_compute in Hel. injection Hel as <-. exact Hacts.
Defined.

(** C5. Clicking the anchor of an entry whose identifier no element of the
    document has (any more): the handler returns normally, having called
    [preventDefault] and nothing else. No scroll is requested, the browser
    does not follow the anchor, and the state is untouched. *)
Theorem click_stale_target_noop (w : World) (heading : TocItem) :
  ¬ Dom.hasId (document w) (id heading) →
  onClick (document w) heading = ([Dom.PreventDefault], Dom.Normal)
  ∧ filter (λ a, Dom.isScroll a = true) (fst (onClick (document w) heading)) = []
  ∧ Dom.defaultNavigation (fst (onClick (document w) heading)) = false
  ∧ filter (λ a, Dom.isScroll a = true) (actions (step w (Click heading)))
    = filter (λ a, Dom.isScroll a = true) (actions w)
  ∧ state (step w (Click heading)) = state w
  ∧ observed (step w (Click heading)) = observed w.
Proof.
  intros Hno. apply getElementById_None in Hno.
  simpl. unfold doClick, onClick. rewrite Hno. simpl.
  split_and!; try done; destruct (_ && _); simpl; try done.
  by rewrite filter_app, filter_cons_False, filter_nil, app_nil_r.
Qed.

Lemma click_stale_target_noop_witness :
  let w := run (initWorld Sample.article) [Mount; Mutate Sample.note] in
  onClick (document w) (toItem Sample.section2) = ([Dom.PreventDefault], Dom.Normal)
  ∧ actions (step w (Click (toItem Sample.section2))) = [Dom.PreventDefault].
Proof.
  intros w. split; [|reflexivity].
  refine (proj1 (click_stale_target_noop w (toItem Sample.section2) _)).
  intros (_ & e & He & Hid). vm_compute in He, Hid.
  repeat (apply elem_of_cons in He as [-> | He]; [discriminate Hid |]).
  by apply not_elem_of_nil in He.
Defined.



(** C7, as stated, fails: the article [Sample.draft] has an h3 without an
    identifier, and the list built on mount has an entry for it, with the
    empty [id]. *)
Lemma headings_without_id_not_skipped : ¬ skipsHeadingsWithoutId Sample.draft.
Proof.
  intros Hskip. apply (Hskip (toItem Sample.unnamed)); [|reflexivity].
  apply list_elem_of_lookup. by exists 1%nat.
Qed.

(** C7, amended. The extraction skips nothing: the list built on mount has
    one entry per h2 and h3 element, and the observer gets every one of
    them as a target. So a heading of a permitted level that has no
    identifier has its entry, at its place in document order and with the
    empty string as [id], and is observed like the others. *)
Theorem headings_without_id_listed (doc : Dom.Document) (e : Dom.Element) :
  e ∈ doc → Dom.matchesH2H3 e = true → Dom.id e = [] →
  let w := step (initWorld doc) Mount in
  headings (state w) = toItem <$> Dom.querySelectorAll doc
  ∧ observed w = Dom.querySelectorAll doc
  ∧ ∃ k : nat,
      Dom.querySelectorAll doc !! k = Some e
      ∧ observed w !! k = Some e
      ∧ ∃ item, headings (state w) !! k = Some item
                ∧ id item = [] ∧ text item = Dom.textContent e.
Proof.
  intros He Hm Hid w. unfold w. rewrite mount_initWorld. simpl.
  split_and!; [done | done |].
  assert (e ∈ Dom.querySelectorAll doc) as Hq
    by (by apply list_elem_of_filter).
  apply list_elem_of_lookup in Hq as [k Hk].
  exists k. split_and!; [done | done |].
  exists (toItem e). rewrite list_lookup_fmap, Hk.
  split_and!; [done | done | apply orElse_empty].
Qed.

Lemma headings_without_id_listed_witness :
  let w := step (initWorld Sample.draft) Mount in
  headings (state w)
  = [ toItem Sample.intro;
      {| id := []; text := str "Code sample"; level := Js.Int 3 |} ]
  ∧ observed w = [Sample.intro; Sample.unnamed].
Proof.
  intros w.
  destruct (headings_without_id_listed Sample.draft Sample.unnamed)
    as (Hh & Ho & _).
  - apply list_elem_of_lookup. by exists 2%nat.
  - reflexivity.
  - reflexivity.
  - split; [exact Hh | exact Ho].
Defined.

(** C8. In the markup of any state, the left padding of an entry is three
    quarters of a rem times (level - 2), 2 being the lowest level the
    component lists. Hence two entries of the same level are indented
    alike, an entry of a higher level is indented more than one of a lower
    level, and in particular every entry of level 3 is indented strictly
    more than every entry of level 2. *)
Theorem indentation_proportional_to_level (s : State) (nav : Nav) :
  render s = Some nav →
  length (items nav) = length (headings s)
  ∧ ∀ (i j : nat) a b,
      headings s !! i = Some a → headings s !! j = Some b →
      ∃ la lb,
        items nav !! i = Some la ∧ items nav !! j = Some lb
        ∧ (∀ z, level a = Js.Int z →
             ∃ q, paddingLeft la = Some q
                  ∧ (q == (3 # 4) * inject_Z (z - 2))%Q)
        ∧ (level a = level b → paddingLeft la = paddingLeft lb)
        ∧ (∀ za zb, level a = Js.Int za → level b = Js.Int zb → (za < zb)%Z →
             ∃ qa qb, paddingLeft la = Some qa ∧ paddingLeft lb = Some qb
                      ∧ (qa < qb)%Q)
        ∧ (level a = Js.Int 2 → level b = Js.Int 3 →
             ∃ qa qb, paddingLeft la = Some qa ∧ paddingLeft lb = Some qb
                      ∧ (qa < qb)%Q).
Proof.
  unfold render. destruct (length (headings s) =? 0)%nat; [done |].
  intros [= <-]. simpl. split; [by rewrite length_fmap |].
  intros i j a b Ha Hb.
  exists (renderItem (activeId s) a), (renderItem (activeId s) b).
  rewrite !list_lookup_fmap, Ha, Hb. simpl.
  assert (∀ za zb, level a = Js.Int za → level b = Js.Int zb → (za < zb)%Z →
    ∃ qa qb, paddingLeftRem (level a) = Some qa
             ∧ paddingLeftRem (level b) = Some qb ∧ (qa < qb)%Q) as Hlt.
  { intros za zb -> -> Hz. simpl. eexists _, _.
    split_and!; [done | done |]. unfold Qlt. simpl. lia. }
  split_and!; [done | done | | | done |].
  - intros z ->. simpl. eexists. split; [done |]. apply Qmult_comm.
  - by intros ->.
  - intros H2 H3. by apply (Hlt 2%Z 3%Z).
Qed.

Lemma indentation_proportional_to_level_witness :
  ∃ nav la lb qa qb,
    render (state Sample.shown) = Some nav
    ∧ items nav !! 1%nat = Some la ∧ items nav !! 2%nat = Some lb
    ∧ paddingLeft la = Some qa ∧ paddingLeft lb = Some qb
    ∧ (qa < qb)%Q.
Proof.
  eexists.
  edestruct (proj2 (indentation_proportional_to_level (state Sample.shown) _ eq_refl)
               1%nat 2%nat (toItem Sample.section2) (toItem Sample.section3)
               eq_refl eq_refl)
    as (la & lb & Hi & Hj & _ & _ & _ & H23).
  destruct (H23 eq_refl eq_refl) as (qa & qb & Ha & Hb & Hlt).
  exists la, lb, qa, qb. by split_and!.
Defined.

(** * Further properties *)

(** ** [slugify] *)

Section SlugifyMore.

Variable lowerNonAscii : jsstring → nat → jsstring.

Lemma hyphen_not_alnum : isAlnum Js.hyphen = false.
Proof. reflexivity. Qed.

Lemma replaceRuns_filter_alnum b u :
  filter (λ c, isAlnum c = true) (replaceRuns b u)
  = filter (λ c, isAlnum c = true) u.
Proof.
  revert b. induction u as [|c t IH]; intros b; simpl; [done |].
  destruct (isAlnum c) eqn:E.
  - rewrite !filter_cons_True by done. by rewrite IH.
  - rewrite (filter_cons_False _ c t) by (by rewrite E).
    destruct b; [apply IH |].
    rewrite filter_cons_False by (by rewrite hyphen_not_alnum). apply IH.
Qed.

Lemma stripEdges_filter_alnum b u :
  filter (λ c, isAlnum c = true) (stripEdges b u)
  = filter (λ c, isAlnum c = true) u.
Proof.
  revert b. induction u as [|c t IH]; intros b; simpl; [done |].
  destruct ((c =? Js.hyphen) && (b || atEnd t)) eqn:E.
  - apply andb_true_iff in E as [->%N.eqb_eq _].
    rewrite filter_cons_False by (by rewrite hyphen_not_alnum). apply IH.
  - rewrite !filter_cons. by rewrite IH.
Qed.

Lemma replaceRuns_no_alnum u :
  Forall (λ c, isAlnum c = false) u →
  replaceRuns true u = []
  ∧ (replaceRuns false u = [] ∨ replaceRuns false u = [Js.hyphen]).
Proof.
  induction 1 as [|c t Hc Ht [IH1 IH2]]; simpl; [by split; [|left] |].
  rewrite Hc, IH1. by split; [|right].
Qed.

Lemma filter_alnum_nil u :
  filter (λ c, isAlnum c = true) u = [] → Forall (λ c, isAlnum c = false) u.
Proof.
  induction u as [|c t IH]; [constructor |].
  destruct (isAlnum c) eqn:E.
  - by rewrite filter_cons_True.
  - rewrite filter_cons_False by (by rewrite E). constructor; auto.
Qed.

Lemma replaceRuns_length b u : (length (replaceRuns b u) ≤ length u)%nat.
Proof.
  revert b. induction u as [|c t IH]; intros b; simpl; [done |].
  destruct (isAlnum c); [| destruct b]; simpl;
    [pose proof (IH false) | pose proof (IH true) | pose proof (IH true)]; lia.
Qed.

Lemma stripEdges_length b u : (length (stripEdges b u) ≤ length u)%nat.
Proof.
  revert b. induction u as [|c t IH]; intros b; simpl; [done |].
  pose proof (IH false). destruct (_ && _); simpl; lia.
Qed.

Lemma toLowerCaseFrom_ascii whole pos s :
  Forall (λ c, c < 128) s →
  toLowerCaseFrom lowerNonAscii whole pos s = lowerAscii <$> s.
Proof.
  intros H. revert pos. induction H as [|c t Hc Ht IH]; intros pos; simpl;
    [done |].
  rewrite IH. apply N.ltb_lt in Hc. by rewrite Hc.
Qed.

Lemma lowerAscii_idemp c : lowerAscii (lowerAscii c) = lowerAscii c.
Proof.
  unfold lowerAscii. destruct (Js.isUpper c) eqn:E; [|by rewrite E].
  destruct (Js.isUpper (c + 32)) eqn:E'; [|done].
  unfold Js.isUpper in *.
  apply andb_true_iff in E as [E1%N.leb_le E2%N.leb_le].
  apply andb_true_iff in E' as [E3%N.leb_le E4%N.leb_le]. lia.
Qed.

Lemma lowerAscii_ascii c : c < 128 → lowerAscii c < 128.
Proof.
  unfold lowerAscii. destruct (Js.isUpper c) eqn:E; [|done].
  unfold Js.isUpper in E.
  apply andb_true_iff in E as [E1%N.leb_le E2%N.leb_le]. lia.
Qed.

(** *** The slug as the words of the text *)

Lemma joinHyphen_cons w ws :
  joinHyphen (w :: ws)
  = match ws with [] => w | _ => w ++ Js.hyphen :: joinHyphen ws end.
Proof. done. Qed.

Lemma splitWords_word_pending cur u : cur ≠ [] → splitWords cur u ≠ [].
Proof.
  revert cur. induction u as [|c t IH]; intros cur Hcur; simpl.
  - by destruct cur.
  - destruct (isAlnum c).
    + apply IH. by destruct cur.
    + by destruct cur.
Qed.

Lemma replaceRuns_true_atEnd u :
  atEnd (replaceRuns true u) = true ↔ splitWords [] u = [].
Proof.
  induction u as [|c t IH]; simpl; [done |].
  destruct (isAlnum c); [|done]. simpl. split; [done |].
  intros H. by apply splitWords_word_pending in H.
Qed.

Lemma stripEdges_false_cons_alnum c x :
  isAlnum c = true → stripEdges false (c :: x) = c :: stripEdges false x.
Proof. intros E. simpl. by rewrite (alnum_not_hyphen _ E). Qed.

(** After a run of separators, and inside a word. *)
Lemma slug_tail_words u :
  stripEdges false (replaceRuns true u) = joinHyphen (splitWords [] u)
  ∧ ∀ cur, cur ≠ [] →
      cur ++ stripEdges false (replaceRuns false u)
      = joinHyphen (splitWords cur u).
Proof.
  induction u as [|c t [IHa IHb]].
  - split; [done |]. intros cur Hcur. simpl. rewrite app_nil_r. by destruct cur.
  - split.
    + simpl. destruct (isAlnum c) eqn:E; [|done].
      rewrite stripEdges_false_cons_alnum by done.
      by rewrite <- IHb.
    + intros cur Hcur. simpl. destruct (isAlnum c) eqn:E.
      * rewrite stripEdges_false_cons_alnum by done.
        rewrite <- IHb by (by destruct cur).
        by rewrite <- app_assoc.
      * replace (match cur with [] => splitWords [] t | _ => cur :: splitWords [] t end)
          with (cur :: splitWords [] t) by (by destruct cur).
        rewrite joinHyphen_cons. simpl.
        pose proof (replaceRuns_true_atEnd t) as Hend.
        destruct (atEnd (replaceRuns true t)) eqn:Ea.
        -- rewrite (proj1 Hend eq_refl).
           destruct (replaceRuns true t); [|discriminate Ea].
           simpl. by rewrite app_nil_r.
        -- rewrite IHa.
           destruct (splitWords [] t) eqn:Ew; [|done].
           discriminate (proj2 Hend eq_refl).
Qed.

Lemma slug_words u :
  stripEdges true (replaceRuns false u) = joinHyphen (splitWords [] u).
Proof.
  destruct u as [|c t]; [done |]. simpl.
  destruct (slug_tail_words t) as [Ha Hb].
  destruct (isAlnum c) eqn:E.
  - simpl. rewrite (alnum_not_hyphen _ E). simpl.
    by rewrite <- Hb.
  - simpl. exact Ha.
Qed.

End SlugifyMore.

(** X1. The slug of a text is made of the words of its lower-cased form,
    that is its maximal runs of letters [a-z] and digits, in order, with
    one hyphen between neighbouring words: what separates two words, and
    what comes before the first and after the last, does not matter. *)
Theorem slugify_joins_words (lowerNonAscii : jsstring → nat → jsstring)
    (text : jsstring) :
  slugify lowerNonAscii text
  = joinHyphen (splitWords [] (toLowerCase lowerNonAscii text)).
Proof. unfold slugify. apply slug_words. Qed.

(** X2. The letters and digits of the slug are exactly the letters [a-z]
    and digits of the lower-cased text, in the same order: none is
    dropped, added or moved. *)
Theorem slugify_keeps_letters_and_digits
    (lowerNonAscii : jsstring → nat → jsstring) (text : jsstring) :
  filter (λ c, isAlnum c = true) (slugify lowerNonAscii text)
  = filter (λ c, isAlnum c = true) (toLowerCase lowerNonAscii text).
Proof.
  unfold slugify. by rewrite stripEdges_filter_alnum, replaceRuns_filter_alnum.
Qed.

(** X3. The slug is empty exactly when the lower-cased text has no letter
    [a-z] and no digit: such a heading gets the empty identifier. *)
Theorem slugify_empty_iff (lowerNonAscii : jsstring → nat → jsstring)
    (text : jsstring) :
  slugify lowerNonAscii text = []
  ↔ Forall (λ c, isAlnum c = false) (toLowerCase lowerNonAscii text).
Proof.
  split.
  - intros H. apply filter_alnum_nil.
    rewrite <- replaceRuns_filter_alnum with (b := false).
    rewrite <- stripEdges_filter_alnum with (b := true).
    fold (slugify lowerNonAscii text). by rewrite H.
  - intros H. unfold slugify.
    destruct (replaceRuns_no_alnum _ H) as [_ [-> | ->]]; reflexivity.
Qed.

(** X4. On texts of ASCII units the slug depends neither on the case of
    the letters nor on the case tables of the platform: two ASCII texts
    that are equal once their capitals are lowered have the same slug. *)
Theorem slugify_ascii_ignores_case
    (lower1 lower2 : jsstring → nat → jsstring) (s1 s2 : jsstring) :
  Forall (λ c, c < 128) s1 → Forall (λ c, c < 128) s2 →
  lowerAscii <$> s1 = lowerAscii <$> s2 →
  slugify lower1 s1 = slugify lower2 s2.
Proof.
  intros H1 H2 Heq. unfold slugify, toLowerCase.
  rewrite !toLowerCaseFrom_ascii by done. by rewrite Heq.
Qed.

Lemma slugify_ascii_ignores_case_witness :
  slugify (λ _ _, []) (str "Docker & AI: Part 2")
  = slugify (λ whole _, whole) (str "DOCKER & ai: part 2").
Proof.
  apply slugify_ascii_ignores_case.
  - by apply (bool_decide_unpack _).
  - by apply (bool_decide_unpack _).
  - reflexivity.
Defined.

(** X5. The slug of an ASCII text is never longer than the text. *)
Theorem slugify_ascii_length (lowerNonAscii : jsstring → nat → jsstring)
    (text : jsstring) :
  Forall (λ c, c < 128) text →
  (length (slugify lowerNonAscii text) ≤ length text)%nat.
Proof.
  intros H. unfold slugify, toLowerCase.
  rewrite toLowerCaseFrom_ascii by done.
  etrans; [apply stripEdges_length |].
  etrans; [apply replaceRuns_length |]. by rewrite length_fmap.
Qed.

Lemma slugify_ascii_length_witness :
  (length (slugify (λ _ _, []) (str "  What's new?  ")) ≤ 15)%nat.
Proof.
  apply (slugify_ascii_length (λ _ _, []) (str "  What's new?  ")).
  by apply (bool_decide_unpack _).
Defined.

(** ** The table of contents, continued *)

Section TocMore.

Implicit Types (w : World) (doc : Dom.Document) (s : State).

Lemma run_snoc w evs ev : run w (evs ++ [ev]) = step (run w evs) ev.
Proof. unfold run. by rewrite foldl_app. Qed.

(** A property kept by every step holds after every run. *)
Lemma run_invariant (P : World → Prop) w evs (Q : Event → Prop) :
  (∀ w' ev, Q ev → P w' → P (step w' ev)) →
  Forall Q evs → P w → P (run w evs).
Proof.
  intros Hstep Hevs. revert w. unfold run.
  induction Hevs as [|ev evs Hev Hevs IH]; intros w Hw; simpl; [done |].
  apply IH. by apply Hstep.
Qed.

Lemma Forall_True {A} (l : list A) : Forall (λ _, True) l.
Proof. by apply Forall_forall. Qed.

Lemma doUnmount_frame w :
  document (doUnmount w) = document w ∧ state (doUnmount w) = state w
  ∧ writes (doUnmount w) = writes w ∧ actions (doUnmount w) = actions w.
Proof. unfold doUnmount. by destruct (teardown w) as [[]|]. Qed.

Lemma mounted_levels doc :
  Forall (λ e, Dom.matchesH2H3 e = true → Dom.plainHtml e = true) doc →
  Forall (λ h, level h = Js.Int 2 ∨ level h = Js.Int 3)
    (toItem <$> Dom.querySelectorAll doc).
Proof.
  intros Hp. apply Forall_fmap, Forall_forall. intros e He.
  apply list_elem_of_filter in He as [Hm He].
  rewrite Forall_forall in Hp.
  destruct (toItem_level e) as [L2 L3]. simpl.
  destruct (matchesH2H3_tag e Hm (Hp e He Hm)); auto.
Qed.

Lemma highlight_absent (active : jsstring) (hs : list TocItem) :
  active ∉ id <$> hs →
  filter (λ li, highlighted li = true) (renderItem active <$> hs) = [].
Proof.
  induction hs as [|h t IH]; [done |]. rewrite fmap_cons, not_elem_of_cons.
  intros [Hne Ht]. rewrite fmap_cons, filter_cons_False; [by apply IH |].
  simpl. intros Hb. by apply bool_decide_eq_true in Hb.
Qed.

Lemma head_filter_first {A} (P : A → Prop) `{!∀ x, Decision (P x)}
    (before after : list A) (x : A) :
  Forall (λ y, ¬ P y) before → P x →
  head (filter P (before ++ x :: after)) = Some x.
Proof.
  intros Hb Hx. induction Hb as [|y l Hy Hl IH]; simpl.
  - by rewrite filter_cons_True.
  - by rewrite filter_cons_False.
Qed.

Lemma onClick_found doc heading el :
  Dom.getElementById doc (id heading) = Some el →
  onClick doc heading
  = ([Dom.PreventDefault; Dom.ScrollIntoView el Dom.Smooth Dom.BlockStart],
     Dom.Normal).
Proof. intros H. unfold onClick. by rewrite H. Qed.

Lemma onClick_actions doc heading :
  fst (onClick doc heading) = [Dom.PreventDefault]
  ∨ ∃ el, Dom.getElementById doc (id heading) = Some el
          ∧ fst (onClick doc heading)
            = [Dom.PreventDefault;
               Dom.ScrollIntoView el Dom.Smooth Dom.BlockStart].
Proof.
  unfold onClick. destruct (Dom.getElementById doc (id heading)) as [el|];
    [right; by exists el | by left].
Qed.

End TocMore.

(** X6. The component returns null exactly when [headings] is empty.
    Otherwise its list has one item per entry, in the order of the
    entries; the item's anchor points to "#" followed by the entry's
    [id], shows the entry's [text], and is highlighted exactly when the
    entry's [id] is [activeId]. *)
Theorem render_lists_every_entry (s : State) :
  (render s = None ↔ headings s = [])
  ∧ ∀ nav, render s = Some nav →
      length (items nav) = length (headings s)
      ∧ ∀ (k : nat) h, headings s !! k = Some h →
          ∃ li, items nav !! k = Some li
                ∧ key li = id h
                ∧ href li = str "#" ++ id h
                ∧ label li = text h
                ∧ (highlighted li = true ↔ id h = activeId s).
Proof.
  unfold render. split.
  - destruct (headings s); simpl; by split.
  - intros nav. destruct (length (headings s) =? 0)%nat; [done |].
    intros [= <-]. simpl. split; [by rewrite length_fmap |].
    intros k h Hk. exists (renderItem (activeId s) h).
    rewrite list_lookup_fmap, Hk. split_and!; try done.
    simpl. rewrite bool_decide_eq_true. by split.
Qed.

(** X7. When the entries have distinct identifiers, at most one item of
    the list is highlighted. *)
Theorem at_most_one_highlighted (s : State) (nav : Nav) :
  render s = Some nav →
  NoDup (id <$> headings s) →
  (length (filter (λ li, highlighted li = true) (items nav)) ≤ 1)%nat.
Proof.
  unfold render. destruct (length (headings s) =? 0)%nat; [done |].
  intros [= <-]. simpl. generalize (activeId s) as active. intros active.
  induction (headings s) as [|h t IH]; [simpl; lia |].
  rewrite !fmap_cons, NoDup_cons. intros [Hh Ht].
  destruct (decide (active = id h)) as [-> | Hne].
  - rewrite filter_cons_True by (simpl; by apply bool_decide_eq_true).
    by rewrite highlight_absent.
  - rewrite filter_cons_False; [by apply IH |].
    simpl. intros Hb. by apply bool_decide_eq_true in Hb.
Qed.

Lemma at_most_one_highlighted_witness :
  ∃ nav,
    render (state (run Sample.shown
                     [Intersect [Dom.mkEntry true Sample.section3]]))
    = Some nav
    ∧ (length (filter (λ li, highlighted li = true) (items nav)) ≤ 1)%nat.
Proof.
  eexists. split; [reflexivity |].
  apply (at_most_one_highlighted
           (state (run Sample.shown
                     [Intersect [Dom.mkEntry true Sample.section3]]))).
  - reflexivity.
  - by apply (bool_decide_unpack _).
Defined.

Section TocInvariants.

Implicit Types (w : World) (doc : Dom.Document).

Lemma step_activeListed w ev :
  isFire ev = false → isAlter ev = false →
  activeListed w → activeListed (step w ev).
Proof.
  intros Hev Hal [Ha Ho]. destruct ev as [| |es|es|hd|d|ch]; simpl; try done.
  - destruct (mounted w) eqn:Hm; [done |]. rewrite doMount_eq. simpl.
    split; [by left |]. intros e He. by apply list_elem_of_fmap_2.
  - destruct (mounted w) eqn:Hm; [|done].
    destruct (doUnmount_frame w) as (_ & Hs & _).
    assert (holds : observed (doUnmount w) = [] ∨ observed (doUnmount w) = observed w).
    { unfold doUnmount. destruct (teardown w) as [[]|]; auto. }
    split; rewrite Hs; [done |].
    intros e He. destruct holds as [H | H]; rewrite H in He; [|auto].
    by apply not_elem_of_nil in He.
  - unfold deliver.
    destruct (filter _ es) as [|e0 batch] eqn:Eb; [done |].
    destruct (mounted w) eqn:Hm;
      [|by rewrite observerCallback_unmounted].
    rewrite observerCallback_mounted by done. simpl. split; [|done].
    destruct (last (intersectingIds (e0 :: batch))) as [i|] eqn:El; [|done].
    right. simpl.
    apply last_Some_elem_of in El. unfold intersectingIds in El.
    apply list_elem_of_fmap in El as (entry & -> & Hentry).
    apply list_elem_of_filter in Hentry as [_ Hentry].
    rewrite <- Eb in Hentry. apply list_elem_of_filter in Hentry as [Hobs _].
    exists (toItem (Dom.target entry)). split; [by apply Ho | done].
  - unfold doClick. by destruct (_ && _).
Qed.

Lemma step_aligned w ev :
  isAlter ev = false →
  (mounted w = true → headings (state w) = toItem <$> observed w) →
  mounted (step w ev) = true →
  headings (state (step w ev)) = toItem <$> observed (step w ev).
Proof.
  intros Hal Hw. destruct ev as [| |es|es|hd|d|ch]; simpl; try done.
  - destruct (mounted w) eqn:Hm; [auto |]. by rewrite doMount_eq.
  - destruct (mounted w) eqn:Hm; [by unfold doUnmount | congruence].
  - destruct (deliver_cases es w) as [-> | [batch ->]]; [done |].
    destruct (observerCallback_frame batch w) as (_ & -> & -> & -> & _). done.
  - destruct (observerCallback_frame es w) as (_ & -> & -> & -> & _). done.
  - unfold doClick. by destruct (_ && _).
Qed.

(** What a step does to the log of calls: nothing, or the calls of one
    click handler at its end. *)
Lemma step_actions w ev :
  actions (step w ev) = actions w
  ∨ ∃ d heading, actions (step w ev) = actions w ++ fst (onClick d heading).
Proof.
  destruct ev as [| |es|es|hd|d|ch]; simpl; try by left.
  - left. destruct (mounted w); [done |]. by rewrite doMount_eq.
  - left. destruct (mounted w); [|done].
    by destruct (doUnmount_frame w) as (_ & _ & _ & ->).
  - left. destruct (deliver_cases es w) as [-> | [batch ->]]; [done |].
    by destruct (observerCallback_frame batch w) as (_ & _ & _ & _ & _ & ->).
  - left. by destruct (observerCallback_frame es w) as (_ & _ & _ & _ & _ & ->).
  - unfold doClick. destruct (_ && _); [|by left]. right. by eexists _, _.
Qed.

Lemma onClick_clickBlock (d : Dom.Document) (heading : TocItem) :
  clickBlock (fst (onClick d heading)).
Proof.
  destruct (onClick_actions d heading) as [-> | (el & Hel & ->)].
  - by left.
  - right. exists el. split; [|done].
    apply getElementById_Some in Hel as (_ & Hid & Hne). by rewrite Hid.
Qed.

Lemma clickBlock_gentle (b : list Dom.Action) :
  clickBlock b → Forall gentleScroll b.
Proof. intros [-> | (el & Hne & ->)]; by repeat constructor. Qed.

Lemma clickBlock_count (b : list Dom.Action) :
  clickBlock b →
  length (filter (λ a, a = Dom.PreventDefault) b) = 1%nat
  ∧ (length (filter (λ a, Dom.isScroll a = true) b) ≤ 1)%nat.
Proof. intros [-> | (el & Hne & ->)]; split; simpl; lia. Qed.

Lemma step_clickBlocks w ev :
  (∃ blocks, actions w = concat blocks ∧ Forall clickBlock blocks) →
  ∃ blocks, actions (step w ev) = concat blocks ∧ Forall clickBlock blocks.
Proof.
  intros (blocks & Hacts & Hblocks).
  destruct (step_actions w ev) as [-> | (d & heading & ->)]; [by exists blocks |].
  exists (blocks ++ [fst (onClick d heading)]). split.
  - rewrite concat_app, Hacts. simpl. by rewrite app_nil_r.
  - apply Forall_app. split; [done |]. constructor; [|done].
    apply onClick_clickBlock.
Qed.

End TocInvariants.

(** X8. As long as reports reach the callback through the observer and
    no observed node is changed in place, [activeId] is either empty or
    the [id] of an entry of the list: the highlight never follows an
    element the list does not show. *)
Theorem activeId_names_listed_entry (doc : Dom.Document) (evs : list Event) :
  Forall (λ ev, isFire ev = false ∧ isAlter ev = false) evs →
  let w := run (initWorld doc) evs in
  activeId (state w) = []
  ∨ ∃ h, h ∈ headings (state w) ∧ id h = activeId (state w).
Proof.
  intros Hevs w.
  apply (run_invariant activeListed (initWorld doc) evs
           (λ ev, isFire ev = false ∧ isAlter ev = false)); [| done |].
  - intros w' ev [Hf Ha]. by apply step_activeListed.
  - split; [by left |]. intros e He. by apply not_elem_of_nil in He.
Qed.

Lemma activeId_names_listed_entry_witness :
  let w := run (initWorld Sample.article)
             [ Mount;
               Intersect [ Dom.mkEntry true Sample.section3;
                           Dom.mkEntry true (Sample.el 7 "h2" "footer" "Footer") ];
               Mutate Sample.draft ] in
  activeId (state w) = []
  ∨ ∃ h, h ∈ headings (state w) ∧ id h = activeId (state w).
Proof.
  apply (activeId_names_listed_entry Sample.article). repeat constructor.
Defined.

(** The targets are live nodes: when the identifier of an observed
    heading is changed after the mount, a report on that heading carries
    its new identifier, which no entry of the list has. *)
Example renamed_heading_is_reported :
  let w := run (initWorld Sample.article)
             [ Mount;
               Alter (Sample.rename 3 "renamed");
               Intersect [Dom.mkEntry true
                            (Sample.rename 3 "renamed" Sample.section2)] ] in
  activeId (state w) = str "renamed"
  ∧ str "renamed" ∉ id <$> headings (state w).
Proof. split; [reflexivity |]. by apply (bool_decide_unpack _). Qed.

(** X9. During a mount, as long as no node is changed in place, the
    observer watches exactly the elements the list was built from, in the
    same order: entry number k of [headings] is the entry of target
    number k. *)
Theorem observer_watches_listed_elements (doc : Dom.Document) (evs : list Event) :
  Forall (λ ev, isAlter ev = false) evs →
  let w := run (initWorld doc) evs in
  mounted w = true → headings (state w) = toItem <$> observed w.
Proof.
  intros Hevs w.
  apply (run_invariant
           (λ w, mounted w = true → headings (state w) = toItem <$> observed w)
           (initWorld doc) evs (λ ev, isAlter ev = false)); [| done | done].
  intros w' ev Hal. by apply step_aligned.
Qed.

Lemma observer_watches_listed_elements_witness :
  let w := run (initWorld Sample.article)
             [ Mount; Mutate Sample.draft;
               Fire [Dom.mkEntry true Sample.unnamed]; Unmount; Mount ] in
  headings (state w) = toItem <$> observed w
  ∧ observed w = [Sample.intro; Sample.unnamed].
Proof.
  split; [|reflexivity].
  by apply (observer_watches_listed_elements Sample.article
              [ Mount; Mutate Sample.draft;
                Fire [Dom.mkEntry true Sample.unnamed]; Unmount; Mount ]
              ltac:(repeat constructor)).
Defined.

(** X10. Every run of the click handler, for any document and any entry,
    calls [preventDefault] first, so the browser never follows the
    anchor, then requests at most one scroll, and returns normally; a
    scroll it requests is smooth, aligns the start of the block and is
    made on an element that has an identifier. Whatever happens to an
    instance, the calls it has made are such runs one after the other,
    and nothing else. *)
Theorem scrolls_are_gentle (doc : Dom.Document) (evs : list Event) :
  let w := run (initWorld doc) evs in
  (∀ d heading,
     clickBlock (fst (onClick d heading))
     ∧ Dom.defaultNavigation (fst (onClick d heading)) = false
     ∧ snd (onClick d heading) = Dom.Normal)
  ∧ (∃ blocks, actions w = concat blocks ∧ Forall clickBlock blocks)
  ∧ Forall gentleScroll (actions w)
  ∧ (length (filter (λ a, Dom.isScroll a = true) (actions w))
     ≤ length (filter (λ a, a = Dom.PreventDefault) (actions w)))%nat.
Proof.
  intros w.
  assert (∃ blocks, actions w = concat blocks ∧ Forall clickBlock blocks)
    as (blocks & Hacts & Hblocks).
  { apply (run_invariant
             (λ w, ∃ blocks, actions w = concat blocks ∧ Forall clickBlock blocks)
             (initWorld doc) evs (λ _, True)); [| apply Forall_True |].
    - intros w' ev _. apply step_clickBlocks.
    - by exists []. }
  split_and!.
  - intros d heading. split; [apply onClick_clickBlock |].
    unfold onClick. by destruct (Dom.getElementById d (id heading)).
  - by exists blocks.
  - rewrite Hacts. clear Hacts.
    induction Hblocks as [|b bs Hb Hbs IH]; simpl; [done |].
    apply Forall_app. split; [by apply clickBlock_gentle | done].
  - rewrite Hacts. clear Hacts.
    induction Hblocks as [|b bs Hb Hbs IH]; simpl; [done |].
    rewrite !filter_app, !length_app.
    destruct (clickBlock_count b Hb). lia.
Qed.

(** X11. For a mount on a document in which every element named h2 or h3
    is an HTML element without namespace prefix, and for as long as the
    mount lasts, every entry of the list has level 2 or 3, so every item
    rendered is indented by 0 or by three quarters of a rem: never by a
    negative amount and never by [NaN]. *)
Theorem listed_levels_and_indents (w0 : World) (evs : list Event) :
  mounted w0 = false →
  Forall (λ e, Dom.matchesH2H3 e = true → Dom.plainHtml e = true)
    (document w0) →
  Forall (λ ev, isMount ev = false) evs →
  let w := run (step w0 Mount) evs in
  Forall (λ h, level h = Js.Int 2 ∨ level h = Js.Int 3) (headings (state w))
  ∧ ∀ nav li, render (state w) = Some nav → li ∈ items nav →
      paddingLeft li = Some (0 # 4) ∨ paddingLeft li = Some (3 # 4).
Proof.
  intros Hm Hplain Hevs w.
  assert (Forall (λ h, level h = Js.Int 2 ∨ level h = Js.Int 3)
            (headings (state w))) as Hl.
  { unfold w. rewrite run_headings by done. simpl. rewrite Hm, doMount_eq.
    by apply mounted_levels. }
  split; [done |]. intros nav li. unfold render.
  destruct (length (headings (state w)) =? 0)%nat; [done |].
  intros [= <-]. simpl. intros (h & -> & Hh)%list_elem_of_fmap.
  rewrite Forall_forall in Hl. simpl.
  destruct (Hl h Hh) as [-> | ->]; [by left | by right].
Qed.

Lemma listed_levels_and_indents_witness :
  let w := run (initWorld Sample.article)
             [ Mount; Alter (Sample.rename 3 "renamed");
               Mutate Sample.drawing; Unmount ] in
  Forall (λ h, level h = Js.Int 2 ∨ level h = Js.Int 3) (headings (state w)).
Proof.
  pose proof (proj1 (listed_levels_and_indents (initWorld Sample.article)
                       [ Alter (Sample.rename 3 "renamed");
                         Mutate Sample.drawing; Unmount ] eq_refl
                       ltac:(repeat constructor; vm_compute; auto)
                       ltac:(repeat constructor))) as H.
  vm_compute in H. vm_compute. exact H.
Defined.

(** The level is the second unit of the tag name, read as a number: for
    an element with a namespace prefix that unit belongs to the prefix. *)
Example prefixed_heading_level :
  let e2 := Dom.mkElement 0 false (Some (str "x0")) (str "h2") [] (str "A") in
  let e3 := Dom.mkElement 1 false (Some (str "svg")) (str "h3") [] (str "B") in
  let e4 := Dom.mkElement 2 true (Some (str "x")) (str "h2") [] (str "C") in
  Dom.querySelectorAll [e2; e3; e4] = [e2; e3; e4]
  ∧ level (toItem e2) = Js.Int 0
  ∧ paddingLeftRem (level (toItem e2)) = Some (-6 # 4)%Q
  ∧ level (toItem e3) = Js.NaN
  ∧ paddingLeftRem (level (toItem e3)) = None
  ∧ Dom.tagName e4 = str "X:H2"
  ∧ level (toItem e4) = Js.NaN.
Proof. by split_and!. Qed.

(** X12. [getElementById] finds the first element in tree order that has
    the identifier. So when several elements share an identifier, a click
    on the entry of any of them scrolls to the first one. *)
Theorem click_scrolls_to_first_with_id
    (before after : Dom.Document) (first : Dom.Element) (heading : TocItem) :
  Dom.id first ≠ [] →
  Forall (λ e, Dom.id e ≠ Dom.id first) before →
  id heading = Dom.id first →
  onClick (before ++ first :: after) heading
  = ([Dom.PreventDefault; Dom.ScrollIntoView first Dom.Smooth Dom.BlockStart],
     Dom.Normal).
Proof.
  intros Hne Hb Hid. apply onClick_found. unfold Dom.getElementById.
  rewrite Hid. destruct (decide (Dom.id first = [])); [done |].
  by apply head_filter_first.
Qed.

Lemma click_scrolls_to_first_with_id_witness :
  onClick Sample.twice (toItem Sample.setupAgain)
  = ([Dom.PreventDefault;
      Dom.ScrollIntoView Sample.setupFirst Dom.Smooth Dom.BlockStart],
     Dom.Normal).
Proof.
  apply (click_scrolls_to_first_with_id [Sample.intro]
           [Sample.el 11 "p" "" "One"; Sample.setupAgain; Sample.el 13 "p" "" "Two"]
           Sample.setupFirst (toItem Sample.setupAgain)).
  - done.
  - by repeat constructor.
  - reflexivity.
Defined.

(** X13. When an element of the document has an identifier that no other
    element has, a click on the entry made from it scrolls to that very
    element. *)
Theorem click_scrolls_to_own_element (doc : Dom.Document) (e : Dom.Element) :
  e ∈ doc → Dom.id e ≠ [] →
  (∀ x, x ∈ doc → Dom.id x = Dom.id e → x = e) →
  onClick doc (toItem e)
  = ([Dom.PreventDefault; Dom.ScrollIntoView e Dom.Smooth Dom.BlockStart],
     Dom.Normal).
Proof.
  intros He Hne Huniq.
  destruct (getElementById_hasId doc (id (toItem e))) as [el Hel].
  { split; [done |]. by exists e. }
  rewrite (onClick_found _ _ _ Hel).
  apply getElementById_Some in Hel as (Hdoc & Hid & _).
  by rewrite (Huniq el Hdoc Hid).
Qed.

Lemma click_scrolls_to_own_element_witness :
  onClick Sample.article (toItem Sample.section3)
  = ([Dom.PreventDefault;
      Dom.ScrollIntoView Sample.section3 Dom.Smooth Dom.BlockStart],
     Dom.Normal).
Proof.
  apply click_scrolls_to_own_element.
  - apply list_elem_of_lookup. by exists 5%nat.
  - done.
  - intros x Hx Hid. vm_compute in Hx, Hid.
    repeat (apply elem_of_cons in Hx as [-> | Hx];
            [first [reflexivity | discriminate Hid] |]).
    by apply not_elem_of_nil in Hx.
Defined.

(** X14. A remount starts afresh: after an unmount followed by a mount,
    whatever the instance went through before, [headings] is the scan of
    the document as it is now, [activeId] is empty, and the observer
    watches the elements of that scan. *)
Theorem remount_rescans (w : World) :
  let w' := run w [Unmount; Mount] in
  mounted w' = true
  ∧ state w' = {| headings := toItem <$> Dom.querySelectorAll (document w);
                  activeId := [] |}
  ∧ observed w' = Dom.querySelectorAll (document w)
  ∧ teardown w' = Some Disconnect.
Proof.
  unfold run. simpl. destruct (mounted w) eqn:Hm.
  - destruct (doUnmount_frame w) as (Hd & _).
    change (mounted (doUnmount w)) with false. cbv iota.
    by rewrite doMount_eq, Hd.
  - rewrite Hm. by rewrite doMount_eq.
Qed.

(** ** Headings rendered by the components and listed by the table *)

(** X15. From the text of a heading to the scroll: when an h2 or h3
    rendered by the components from a plain string is in the document, its
    slug is not empty and no other element has it as identifier, then the
    list built on mount has an entry for it whose [id] is the slug and
    whose [text] is the string, and a click on that entry scrolls to the
    heading itself. *)
Theorem heading_listed_and_reached
    (lowerNonAscii : jsstring → nat → jsstring)
    (doc : Dom.Document) (tag title : jsstring) (node : nat) :
  let e := Mdx.heading lowerNonAscii tag (Mdx.Text title) node in
  Dom.matchesH2H3 e = true →
  e ∈ doc →
  slugify lowerNonAscii title ≠ [] →
  (∀ x, x ∈ doc → Dom.id x = slugify lowerNonAscii title → x = e) →
  ∃ item,
    item ∈ headings (state (step (initWorld doc) Mount))
    ∧ id item = slugify lowerNonAscii title
    ∧ text item = title
    ∧ onClick doc item
      = ([Dom.PreventDefault; Dom.ScrollIntoView e Dom.Smooth Dom.BlockStart],
         Dom.Normal).
Proof.
  intros e Hm He Hne Huniq. exists (toItem e).
  rewrite mount_initWorld. simpl. split_and!.
  - apply list_elem_of_fmap_2. by apply list_elem_of_filter.
  - done.
  - apply orElse_empty.
  - destruct (getElementById_hasId doc (id (toItem e))) as [el Hel].
    { split; [done |]. by exists e. }
    rewrite (onClick_found _ _ _ Hel).
    apply getElementById_Some in Hel as (Hdoc & Hid & _).
    by rewrite (Huniq el Hdoc Hid).
Qed.

Lemma heading_listed_and_reached_witness :
  let e := Mdx.h3 (λ _ _, []) (Mdx.Text (str "Section 3")) 5 in
  ∃ item,
    item ∈ headings (state Sample.shown)
    ∧ id item = str "section-3"
    ∧ text item = str "Section 3"
    ∧ onClick Sample.article item
      = ([Dom.PreventDefault; Dom.ScrollIntoView e Dom.Smooth Dom.BlockStart],
         Dom.Normal).
Proof.
  intros e.
  apply (heading_listed_and_reached (λ _ _, []) Sample.article
           (str "h3") (str "Section 3") 5).
  - reflexivity.
  - apply list_elem_of_lookup. by exists 5%nat.
  - done.
  - intros x Hx Hid. vm_compute in Hx, Hid.
    repeat (apply elem_of_cons in Hx as [-> | Hx];
            [first [reflexivity | discriminate Hid] |]).
    by apply not_elem_of_nil in Hx.
Defined.

(** X16. A heading gets the empty identifier exactly when its children
    are not a plain string or have no letter [a-z] and no digit once
    lower-cased. The entry of such a heading points to "#" and a click on
    it, in any document, requests no scroll. *)
Theorem heading_without_id_is_inert
    (lowerNonAscii : jsstring → nat → jsstring)
    (tag : jsstring) (children : Mdx.Children) (node : nat) :
  let e := Mdx.heading lowerNonAscii tag children node in
  (Dom.id e = []
   ↔ match children with
     | Mdx.Text s => Forall (λ c, isAlnum c = false) (toLowerCase lowerNonAscii s)
     | Mdx.Markup _ => True
     end)
  ∧ (Dom.id e = [] →
     ∀ doc active,
       onClick doc (toItem e) = ([Dom.PreventDefault], Dom.Normal)
       ∧ href (renderItem active (toItem e)) = str "#").
Proof.
  intros e. split.
  - destruct children as [s | content]; simpl; [|done].
    split.
    + intros H. apply filter_alnum_nil.
      rewrite <- replaceRuns_filter_alnum with (b := false).
      rewrite <- stripEdges_filter_alnum with (b := true).
      fold (slugify lowerNonAscii s). by rewrite H.
    + intros H. unfold slugify.
      destruct (replaceRuns_no_alnum _ H) as [_ [-> | ->]]; reflexivity.
  - intros Hid doc active. unfold e in Hid. simpl in Hid.
    unfold onClick, renderItem. simpl. by rewrite Hid.
Qed.

(** ** The [a] and [img] components *)

(** Looking a name up in props put together by spreads, defaults and
    deletions. *)
Ltac props_lookup :=
  unfold Mdx.spreadOver, Mdx.setProp;
  repeat match goal with
    | |- context [match ?x with Some _ => _ | None => _ end] =>
        let E := fresh "E" in destruct x eqn:E
    end;
  rewrite ?lookup_insert, ?lookup_union, ?lookup_delete, ?lookup_insert,
    ?lookup_empty;
  repeat (case_decide; simplify_eq/=); try done.

Lemma externalAnchor_lookup (all : Mdx.Props) (k : string) :
  Mdx.attrs (Mdx.externalAnchor (all !! "href") (all !! "children")
               (delete "href" (delete "children" all))) !! k
  = if decide (k = "target")
    then Some (default (Mdx.PStr (str "_blank")) (all !! "target"))
    else if decide (k = "rel")
    then Some (default (Mdx.PStr (str "noopener noreferrer")) (all !! "rel"))
    else all !! k.
Proof.
  unfold Mdx.externalAnchor. simpl. props_lookup;
    rewrite ?E, ?E0; try done.
  all: match goal with
       | |- context [?o ∪ _] => destruct o
       end; reflexivity.
Qed.

(** X17. A link whose [href] starts with "/" becomes a [Link] of the
    framework that gets the [href] and the children and nothing else:
    every other prop of the link is dropped. *)
Theorem a_internal_link (all : Mdx.Props) (h : jsstring) :
  all !! "href" = Some (Mdx.PStr h) → Mdx.startsWithSlash h = true →
  ∃ r, Mdx.a all = Some r
       ∧ Mdx.tag r = Mdx.NextLink
       ∧ Mdx.attrs r !! "href" = Some (Mdx.PStr h)
       ∧ Mdx.attrs r !! "children" = all !! "children"
       ∧ ∀ k, k ≠ "href" → k ≠ "children" → Mdx.attrs r !! k = None.
Proof.
  intros Hh Hs. unfold Mdx.a. rewrite Hh, Hs. eexists. split; [done |].
  simpl. split_and!; [done | | |]; props_lookup.
  all: intros k ? ?; by rewrite ?lookup_insert_ne, lookup_empty by done.
Qed.

Lemma a_internal_link_witness :
  ∃ r, Mdx.a (<["href" := Mdx.PStr (str "/blog/getting-started")]>
                (<["title" := Mdx.PStr (str "Start")]>
                   (<["children" := Mdx.PObject 0]> ∅))) = Some r
       ∧ Mdx.tag r = Mdx.NextLink
       ∧ Mdx.attrs r !! "title" = None.
Proof.
  destruct (a_internal_link
              (<["href" := Mdx.PStr (str "/blog/getting-started")]>
                 (<["title" := Mdx.PStr (str "Start")]>
                    (<["children" := Mdx.PObject 0]> ∅)))
              (str "/blog/getting-started"))
    as (r & Hr & Ht & _ & _ & Hk).
  - reflexivity.
  - reflexivity.
  - exists r. split_and!; [exact Hr | exact Ht | by apply Hk].
Defined.

(** X18. Any other link (an [href] that is a string not starting with
    "/", null or missing) becomes a plain anchor that keeps its [href],
    its children and all its props, and opens in a new tab without
    opener or referrer: [target] is "_blank" and [rel] is
    "noopener noreferrer" unless the props themselves set them. *)
Theorem a_external_anchor (all : Mdx.Props) :
  match all !! "href" with
  | Some (Mdx.PStr h) => Mdx.startsWithSlash h = false
  | Some Mdx.PNull | None => True
  | Some _ => False
  end →
  ∃ r, Mdx.a all = Some r
       ∧ Mdx.tag r = Mdx.TagA
       ∧ Mdx.attrs r !! "target"
         = Some (default (Mdx.PStr (str "_blank")) (all !! "target"))
       ∧ Mdx.attrs r !! "rel"
         = Some (default (Mdx.PStr (str "noopener noreferrer")) (all !! "rel"))
       ∧ ∀ k, k ≠ "target" → k ≠ "rel" → Mdx.attrs r !! k = all !! k.
Proof.
  intros Hh.
  exists (Mdx.externalAnchor (all !! "href") (all !! "children")
            (delete "href" (delete "children" all))).
  split.
  { unfold Mdx.a. destruct (all !! "href") as [[h| | | | |]|]; try done.
    by rewrite Hh. }
  split; [done |]. rewrite !externalAnchor_lookup.
  split_and!; [done | done |].
  intros k ? ?. rewrite externalAnchor_lookup. by repeat case_decide.
Qed.

Lemma a_external_anchor_witness :
  ∃ r, Mdx.a (<["href" := Mdx.PStr (str "#setup")]>
                (<["rel" := Mdx.PStr (str "nofollow")]> ∅)) = Some r
       ∧ Mdx.attrs r !! "target" = Some (Mdx.PStr (str "_blank"))
       ∧ Mdx.attrs r !! "rel" = Some (Mdx.PStr (str "nofollow")).
Proof.
  destruct (a_external_anchor
              (<["href" := Mdx.PStr (str "#setup")]>
                 (<["rel" := Mdx.PStr (str "nofollow")]> ∅)))
    as (r & Hr & _ & Ht & Hrel & _).
  - reflexivity.
  - exists r. split_and!; [exact Hr | exact Ht | exact Hrel].
Defined.

(** X19. The [img] component renders the framework's [Image] exactly when
    [width] and [height] are numbers and [src] is truthy, and a native
    [img] otherwise. Either way the element has an [alt], the empty string
    when none was given, and the [src] it was given. The native [img]
    never gets [width] or [height] and is lazily loaded unless the props
    say otherwise; the [Image] gets the [width] and [height] and, unless
    the props say otherwise, [sizes] "100vw". *)
Theorem img_choice_and_alt (all : Mdx.Props) :
  let r := Mdx.img all in
  (Mdx.tag r = Mdx.NextImage
   ↔ Mdx.isNumber (all !! "width") = true
     ∧ Mdx.isNumber (all !! "height") = true
     ∧ Mdx.truthy (all !! "src") = true)
  ∧ Mdx.attrs r !! "alt" = Some (default (Mdx.PStr []) (all !! "alt"))
  ∧ Mdx.attrs r !! "src" = all !! "src"
  ∧ (Mdx.tag r = Mdx.TagImg →
     Mdx.attrs r !! "width" = None ∧ Mdx.attrs r !! "height" = None
     ∧ Mdx.attrs r !! "loading"
       = Some (default (Mdx.PStr (str "lazy")) (all !! "loading")))
  ∧ (Mdx.tag r = Mdx.NextImage →
     Mdx.attrs r !! "width" = all !! "width"
     ∧ Mdx.attrs r !! "height" = all !! "height"
     ∧ Mdx.attrs r !! "sizes"
       = Some (default (Mdx.PStr (str "100vw")) (all !! "sizes"))).
Proof.
  intros r. unfold r, Mdx.img.
  destruct (Mdx.isNumber (all !! "width")) eqn:Ew,
           (Mdx.isNumber (all !! "height")) eqn:Eh,
           (Mdx.truthy (all !! "src")) eqn:Es; simpl.
  all: split_and!; try done; try (split; [done | by intros (? & ? & ?)]).
  all: try (intros _; split_and!).
  all: props_lookup.
  all: try (rewrite ?E, ?E0, ?E1, ?E2; done).
  all: match goal with
       | |- context [?o ∪ _] => destruct o
       end; reflexivity.
Qed.

(** ** The theme toggle *)

Lemma onClick_theme (t : Theme.Themes) :
  Theme.theme (Theme.onClick t)
  = Some (if Theme.isDark t then str "light" else str "dark").
Proof. done. Qed.

Lemma isDark_explicit (t : Theme.Themes) :
  Theme.theme t = Some (str "light") ∨ Theme.theme t = Some (str "dark") →
  Theme.currentTheme t = Theme.theme t
  ∧ Theme.isDark t = bool_decide (Theme.theme t = Some (str "dark")).
Proof.
  unfold Theme.isDark, Theme.currentTheme.
  intros [H | H]; rewrite H; by rewrite decide_False.
Qed.

Lemma onClick_explicit (t : Theme.Themes) :
  Theme.theme (Theme.onClick t) = Some (str "light")
  ∨ Theme.theme (Theme.onClick t) = Some (str "dark").
Proof. rewrite onClick_theme. destruct (Theme.isDark t); auto. Qed.

Lemma onClick_flips (t : Theme.Themes) :
  Theme.isDark (Theme.onClick t) = negb (Theme.isDark t).
Proof.
  destruct (isDark_explicit _ (onClick_explicit t)) as [_ ->].
  rewrite onClick_theme. by destruct (Theme.isDark t).
Qed.

(** X20. A click on the button turns a dark theme into "light" and
    anything else into "dark": the icon changes with every click, and
    two clicks bring back the theme that was in force when it was
    "dark" or "light" (a "system" theme is replaced by what the system
    preferred). Before the effect has run there is no button, only the
    placeholder. *)
Theorem toggle_flips_theme (g : Theme.Toggle) :
  let t := Theme.themes g in
  Theme.isDark (Theme.onClick t) = negb (Theme.isDark t)
  ∧ Theme.isDark (Theme.onClick (Theme.onClick t)) = Theme.isDark t
  ∧ (Theme.currentTheme t = Some (str "dark")
     ∨ Theme.currentTheme t = Some (str "light") →
     Theme.currentTheme (Theme.onClick (Theme.onClick t)) = Theme.currentTheme t)
  ∧ (Theme.mounted g = false →
     Theme.render g = Theme.Placeholder ∧ Theme.step g Theme.Click = g)
  ∧ (Theme.mounted g = true →
     Theme.render g = Theme.Button (if Theme.isDark t then Theme.Sun else Theme.Moon)
     ∧ Theme.render (Theme.step g Theme.Click)
       = Theme.Button (if Theme.isDark t then Theme.Moon else Theme.Sun)).
Proof.
  intros t. split_and!.
  - apply onClick_flips.
  - rewrite !onClick_flips. apply negb_involutive.
  - intros Hcur.
    destruct (isDark_explicit _ (onClick_explicit (Theme.onClick t))) as [-> _].
    rewrite onClick_theme, onClick_flips. unfold Theme.isDark.
    destruct Hcur as [-> | ->]; reflexivity.
  - intros Hm. unfold Theme.render. simpl. by rewrite Hm.
  - intros Hm. unfold Theme.render. simpl. rewrite Hm. simpl.
    fold t. rewrite onClick_flips. by destruct (Theme.isDark t).
Qed.

Lemma toggle_flips_theme_witness :
  let g := {| Theme.mounted := true;
              Theme.themes := {| Theme.theme := Some (str "system");
                                 Theme.systemTheme := Some (str "dark") |} |} in
  Theme.render g = Theme.Button Theme.Sun
  ∧ Theme.render (Theme.step g Theme.Click) = Theme.Button Theme.Moon.
Proof.
  intros g.
  destruct (toggle_flips_theme g) as (_ & _ & _ & _ & H).
  exact (H eq_refl).
Defined.

(** X21. Once the button has been clicked the stored theme is "light" or
    "dark" and stays so: the toggle never goes back to "system", and
    later changes of the system's preference no longer change the theme
    in force. *)
Theorem click_leaves_system_theme (g : Theme.Toggle) (evs : list Theme.Event) :
  Theme.mounted g = true →
  let g' := Theme.run (Theme.step g Theme.Click) evs in
  (Theme.theme (Theme.themes g') = Some (str "light")
   ∨ Theme.theme (Theme.themes g') = Some (str "dark"))
  ∧ Theme.currentTheme (Theme.themes g') = Theme.theme (Theme.themes g')
  ∧ ∀ preference,
      Theme.currentTheme (Theme.themes (Theme.step g' (Theme.SystemChange preference)))
      = Theme.currentTheme (Theme.themes g').
Proof.
  intros Hm g'.
  assert (Theme.mounted g' = true
          ∧ (Theme.theme (Theme.themes g') = Some (str "light")
             ∨ Theme.theme (Theme.themes g') = Some (str "dark"))) as [_ Hex].
  { unfold g', Theme.run.
    assert (Theme.mounted (Theme.step g Theme.Click) = true
            ∧ (Theme.theme (Theme.themes (Theme.step g Theme.Click))
               = Some (str "light")
               ∨ Theme.theme (Theme.themes (Theme.step g Theme.Click))
                 = Some (str "dark"))) as H0.
    { simpl. rewrite Hm. split; [done |]. apply onClick_explicit. }
    revert H0. generalize (Theme.step g Theme.Click) as g0.
    induction evs as [|ev evs IH]; intros g0 H0; simpl; [done |].
    apply IH. destruct H0 as [Hm0 Ht0].
    destruct ev as [| |pref]; simpl; [done | | done].
    rewrite Hm0. split; [done |]. apply onClick_explicit. }
  split; [done |]. split; [by apply isDark_explicit |].
  intros preference. unfold Theme.currentTheme. simpl.
  destruct Hex as [-> | ->]; by rewrite !decide_False.
Qed.

Lemma click_leaves_system_theme_witness :
  let g := {| Theme.mounted := true;
              Theme.themes := {| Theme.theme := Some (str "system");
                                 Theme.systemTheme := Some (str "dark") |} |} in
  Theme.currentTheme
    (Theme.themes (Theme.run g [ Theme.Click;
                                 Theme.SystemChange (Some (str "dark"));
                                 Theme.SystemChange None ]))
  = Some (str "light").
Proof.
  intros g.
  destruct (click_leaves_system_theme g
              [Theme.SystemChange (Some (str "dark"))] eq_refl)
    as (_ & _ & H).
  exact (H None).
Defined.

(** ** The metadata of a post *)

(** X22. For one post and one environment, the canonical URL, the Open
    Graph URL and the URL of the structured data are the same string, the
    base URL followed by "/blog/" and the slug, and the three image URLs
    are the same too. The base URL is the environment's when that is a
    non-empty string and "https://yourdomain.com" otherwise. Two posts
    have the same canonical URL only if they have the same slug. *)
Theorem post_urls_agree (env : option jsstring) (m m' : Meta.BlogMetadata) :
  let md := Meta.generateBlogMetadata env m in
  let sd := Meta.generateStructuredData env m in
  Meta.canonical md = Meta.baseUrl env ++ str "/blog/" ++ Meta.slug m
  ∧ Meta.ogUrl (Meta.openGraph md) = Meta.canonical md
  ∧ Meta.sdUrl sd = Meta.canonical md
  ∧ Meta.imageUrl <$> Meta.ogImages (Meta.openGraph md) = [Meta.sdImage sd]
  ∧ Meta.twImages (Meta.twitter md) = [Meta.sdImage sd]
  ∧ (Meta.baseUrl env
     = match env with
       | Some (c :: rest) => c :: rest
       | _ => str "https://yourdomain.com"
       end)
  ∧ (Meta.canonical (Meta.generateBlogMetadata env m') = Meta.canonical md →
     Meta.slug m' = Meta.slug m).
Proof.
  intros md sd. split_and!; try done.
  - by destruct env as [[|c rest]|].
  - intros H.
    change (Meta.baseUrl env ++ str "/blog/" ++ Meta.slug m'
            = Meta.baseUrl env ++ str "/blog/" ++ Meta.slug m) in H.
    by apply app_inv_head, app_inv_head in H.
Qed.

(** X23. Where the two descriptions of a post differ. They name the same
    author exactly when the post gives a non-empty author: for a missing
    one the metadata says "Technical Blog" and the structured data
    "Technical Blog Author". They give the same modification time exactly
    when the post gives a non-empty one or gives the same value for the
    publication: otherwise the structured data falls back to the time of
    publication and the metadata does not. *)
Theorem descriptions_agree_when (env : option jsstring) (m : Meta.BlogMetadata) :
  let md := Meta.generateBlogMetadata env m in
  let sd := Meta.generateStructuredData env m in
  (Some <$> Meta.authors md = [Meta.authorName sd]
   ↔ ∃ name, Meta.author m = Some name ∧ name ≠ [])
  ∧ (Meta.author m = None →
     Meta.authors md = [str "Technical Blog"]
     ∧ Meta.authorName sd = Some (str "Technical Blog Author"))
  ∧ (Meta.dateModified sd = Meta.ogModifiedTime (Meta.openGraph md)
     ↔ (∃ time, Meta.modifiedTime m = Some time ∧ time ≠ [])
       ∨ Meta.publishedTime m = Meta.modifiedTime m)
  ∧ Meta.datePublished sd = Meta.ogPublishedTime (Meta.openGraph md).
Proof.
  intros md sd. unfold md, sd. simpl. split_and!; [| | |done].
  - destruct (Meta.author m) as [[|c name]|]; simpl; split; try done.
    + by intros (name & [= <-] & Hne).
    + intros _. by eexists.
    + by intros (name & [=] & _).
  - by intros ->.
  - destruct (Meta.modifiedTime m) as [[|c time]|]; simpl; split; auto.
    + intros [(time & [= <-] & Hne) | H]; done.
    + intros _. left. by eexists.
    + intros [(time & [=] & _) | H]; done.
Qed.
